(** * Search_Engine.py: a shallow embedding and its verified properties

    The program is a small in-memory search engine: a tokenizer with a
    naive singular rule, a prefix trie, an inverted index, a ranking search
    and a word-break enumeration over the trie.

    Modelling decisions, all taken from [Search_Engine.py]:
    - a Python [str] is a [string]; a character is a code point in
      U+0000..U+00FF (the program's own text is ASCII);
    - a [dict] or [defaultdict] that is only read by key is a [gmap]; a dict
      that is iterated ([TrieNode.children], [pageMatchCount]) is an
      association list in insertion order;
    - a [set] of page ids is a [gset nat]. Python leaves open in which order
      a set yields its elements, so [search] takes that order as an argument,
      a [SetOrder]: any function that lists the elements of the set that the
      lookup of a token returned, each once. What is proved of [search] for
      every [SetOrder] holds whatever the interpreter does. The runs on the
      four main pages are evaluated under [ascending]: CPython yields a set
      of small non-negative integers in the order of its hash-table slots,
      which is ascending while the ids stay below 8, the initial size of the
      table;
    - mutation is explicit state passing: an operation returns the new state
      of every object it can write to;
    - [self.pages[pageId]] raises [IndexError] out of range: [search] returns
      an [option], [None] being the exception;
    - the two recursive functions, [_find_suggestions] and
      [word_break_helper], run under the interpreter's recursion limit: they
      and their callers take [depth], the number of frames that the
      interpreter still allows at the call. A call needs one frame, gives its
      callees the rest, and raises [RecursionError], [None], when no frame is
      left. The calls that do not recurse nest a fixed number of frames deep,
      in the program and in the library ([re.sub]); they are taken to find
      the frames they need, except [trie.search] inside [word_break_helper],
      which is charged its frame, because it is called at every depth of the
      recursion;
    - memory is not modelled, nor is the text that [print] makes of a list. *)

From stdpp Require Import gmap strings list fin_maps sorting pretty.
From Stdlib Require Import Ascii.

#[local] Set Warnings "-register-all,-clear-no-such-hyp".

(** ** Stopwords and preprocessing *)

Definition stopWords : list string :=
  ["the"; "is"; "and"; "a"; "an"; "in"; "of"; "on"; "for"; "with"; "to"].

Definition in_stopWords (token : string) : bool :=
  existsb (String.eqb token) stopWords.

Definition char_between (lo hi c : ascii) : bool :=
  (lo <=? c)%char && (c <=? hi)%char.

(** [str.lower] on one code point below U+0100: A-Z and the Latin-1 capitals
    move up by 32, everything else stays. *)
Definition lower_char (c : ascii) : ascii :=
  if char_between "A" "Z" c
     || char_between (ascii_of_nat 192) (ascii_of_nat 214) c
     || char_between (ascii_of_nat 216) (ascii_of_nat 222) c
  then ascii_of_nat (nat_of_ascii c + 32)
  else c.

Fixpoint to_lower (text : string) : string :=
  match text with
  | EmptyString => EmptyString
  | String c rest => String (lower_char c) (to_lower rest)
  end.

(** What [\s] and [str.split] treat as white space below U+0100. *)
Definition is_space (c : ascii) : bool :=
  char_between (ascii_of_nat 9) (ascii_of_nat 13) c
  || char_between (ascii_of_nat 28) (ascii_of_nat 32) c
  || Ascii.eqb c (ascii_of_nat 133)
  || Ascii.eqb c (ascii_of_nat 160).

(** The complement of the character class [[^a-zA-Z0-9\s]]. *)
Definition kept_char (c : ascii) : bool :=
  char_between "a" "z" c || char_between "A" "Z" c
  || char_between "0" "9" c || is_space c.

Fixpoint remove_punctuation (text : string) : string :=
  match text with
  | EmptyString => EmptyString
  | String c rest =>
      if kept_char c then String c (remove_punctuation rest)
      else remove_punctuation rest
  end.

(** [word.endswith(suffix)] *)
Definition endswith (word suffix : string) : bool :=
  (String.length suffix <=? String.length word)%nat
  && String.eqb
       (String.substring (String.length word - String.length suffix)
                  (String.length suffix) word)
       suffix.

(** [word[:-n]] for a positive [n] *)
Definition drop_last (n : nat) (word : string) : string :=
  String.substring 0 (String.length word - n) word.

Definition to_singular (word : string) : string :=
  if endswith word "ies" && (3 <? String.length word)%nat
  then drop_last 3 word +:+ "y"
  else if endswith word "s" && (1 <? String.length word)%nat
  then drop_last 1 word
  else word.

(** [text.split()]: the maximal runs of characters that are not white space.
    [cur] is the run being read. *)
Fixpoint split_go (cur : string) (text : string) : list string :=
  match text with
  | EmptyString => if String.eqb cur "" then [] else [cur]
  | String c rest =>
      if is_space c
      then (if String.eqb cur "" then split_go "" rest
            else cur :: split_go "" rest)
      else split_go (cur +:+ String c "") rest
  end.

Definition split (text : string) : list string := split_go "" text.

(** The body of the loop of [tokenize]: what one word appends to [tokens]. *)
Definition token_forms (token : string) : list string :=
  if in_stopWords token then []
  else
    let singular := to_singular token in
    if String.eqb singular token then [token] else [token; singular].

Definition tokenize (content : string) : list string :=
  let cleaned := to_lower (remove_punctuation content) in
  flat_map token_forms (split cleaned).

(** [needle in hay] on strings *)
Fixpoint str_in (needle hay : string) : bool :=
  String.prefix needle hay
  || match hay with
     | EmptyString => false
     | String _ rest => str_in needle rest
     end.

(** ** Control *)

(** A [for] loop whose body may raise. *)
Fixpoint for_each {S A : Type} (body : S → A → option S) (st : S)
    (items : list A) : option S :=
  match items with
  | [] => Some st
  | x :: items' =>
      match body st x with
      | None => None
      | Some st' => for_each body st' items'
      end
  end.

(** ** Trie *)

Inductive TrieNode : Type :=
| Node (is_end_of_word : bool) (children : list (ascii * TrieNode)).

Definition is_end_of_word (node : TrieNode) : bool :=
  match node with Node e _ => e end.

Definition children (node : TrieNode) : list (ascii * TrieNode) :=
  match node with Node _ ch => ch end.

(** [TrieNode()] *)
Definition new_node : TrieNode := Node false [].

Record Trie : Type := MkTrie { root : TrieNode }.

(** [Trie()] *)
Definition new_trie : Trie := MkTrie new_node.

(** [children[c]], when [c in children] *)
Fixpoint child_get (c : ascii) (ch : list (ascii * TrieNode)) : option TrieNode :=
  match ch with
  | [] => None
  | (k, n) :: ch' => if Ascii.eqb k c then Some n else child_get c ch'
  end.

(** The node under key [c] replaced by [f] of it: a mutation of
    [children[c]] in place, which keeps the key's position. *)
Fixpoint child_alter (f : TrieNode → TrieNode) (c : ascii)
    (ch : list (ascii * TrieNode)) : list (ascii * TrieNode) :=
  match ch with
  | [] => []
  | (k, n) :: ch' =>
      if Ascii.eqb k c then (k, f n) :: ch' else (k, n) :: child_alter f c ch'
  end.

(** [if c not in children: children[c] = TrieNode()]: a new key goes last. *)
Definition child_ensure (c : ascii) (ch : list (ascii * TrieNode))
    : list (ascii * TrieNode) :=
  match child_get c ch with
  | Some _ => ch
  | None => (ch ++ [(c, new_node)])%list
  end.

Module Trie.

(** The loop of [Trie.insert] from [node] on, as the rebuilt node. *)
Fixpoint insert_from (word : string) (node : TrieNode) : TrieNode :=
  match word with
  | EmptyString => Node true (children node)
  | String c rest =>
      Node (is_end_of_word node)
           (child_alter (insert_from rest) c (child_ensure c (children node)))
  end.

Definition insert (trie : Trie) (word : string) : Trie :=
  MkTrie (insert_from word (root trie)).

(** The walk shared by [search] and [autocomplete]: the node that [word]
    leads to, [None] when a character has no child. *)
Fixpoint walk (word : string) (node : TrieNode) : option TrieNode :=
  match word with
  | EmptyString => Some node
  | String c rest =>
      match child_get c (children node) with
      | None => None
      | Some child => walk rest child
      end
  end.

Definition search (trie : Trie) (word : string) : bool :=
  match walk word (root trie) with
  | None => false
  | Some node => is_end_of_word node
  end.

(** [_find_suggestions], the list [suggestions] passed through. [depth] is
    the number of frames that are left, the frame of this call among them:
    with none left the call raises [RecursionError], [None]; every child is
    visited with one frame fewer. *)
Fixpoint find_suggestions (depth : nat) (node : TrieNode) (pfx : string)
    (suggestions : list string) : option (list string) :=
  match depth with
  | O => None
  | S depth' =>
      let suggestions :=
        if is_end_of_word node then (suggestions ++ [pfx])%list else suggestions in
      for_each
        (λ suggestions item,
           find_suggestions depth' item.2 (pfx +:+ String item.1 "") suggestions)
        suggestions (children node)
  end.

(** [autocomplete], called with [depth] frames left: one is its own. *)
Definition autocomplete (depth : nat) (trie : Trie) (pfx : string)
    : option (list string) :=
  match depth with
  | O => None
  | S depth' =>
      match walk pfx (root trie) with
      | None => Some []
      | Some node => find_suggestions depth' node pfx []
      end
  end.

End Trie.

(** ** WebPage *)

Record WebPage : Type := MkWebPage {
  url : string;
  content : string;
  wordFrequency : gmap string nat
}.

(** [wordFrequency[token] += 1] on a [defaultdict(int)] *)
Definition count_token (freq : gmap string nat) (token : string)
    : gmap string nat :=
  <[token := S (default 0 (freq !! token))]> freq.

(** [WebPage.__init__]: the page built, and the trie it wrote to. *)
Definition WebPage_init (url content : string) (trie : Trie) : WebPage * Trie :=
  let tokens := tokenize content in
  let '(freq, trie) :=
    foldl (λ '(freq, trie) token, (count_token freq token, Trie.insert trie token))
          (∅, trie) tokens in
  (MkWebPage url content freq, trie).

(** ** InvertedIndex: the object is its one field, a [defaultdict(set)]. *)

Module InvertedIndex.

(** [index[token].add(pageId)] *)
Definition add_posting (pageId : nat) (index : gmap string (gset nat))
    (token : string) : gmap string (gset nat) :=
  <[token := default ∅ (index !! token) ∪ {[pageId]}]> index.

Definition add_page (index : gmap string (gset nat)) (pageId : nat)
    (tokens : list string) : gmap string (gset nat) :=
  foldl (add_posting pageId) index tokens.

Definition search (index : gmap string (gset nat)) (token : string) : gset nat :=
  let token := to_lower token in
  let singular := to_singular token in
  let results : gset nat := ∅ in
  let results :=
    match index !! token with Some s => results ∪ s | None => results end in
  let results :=
    match index !! singular with Some s => results ∪ s | None => results end in
  results.

End InvertedIndex.

(** ** SearchEngine *)

Record SearchEngine : Type := MkEngine {
  pages : list WebPage;
  index : gmap string (gset nat)
}.

Definition new_engine : SearchEngine := MkEngine [] ∅.

(** One entry of the ranked output: what the output loop prints of a page. *)
Record Ranked : Type := MkRanked {
  pageId : nat;
  matchCount : nat;
  frequencySum : nat;
  exactMatch : bool
}.

(** The locals of [search] that its first loop writes, with the pages. *)
Record Scan : Type := MkScan {
  scan_pages : list WebPage;
  pageMatchCount : list (nat * nat);
  pageFrequencySum : gmap nat nat
}.

(** [d[k] += n] on a [defaultdict(int)] that is iterated later: a new key
    goes last, a known key keeps its place. *)
Fixpoint bump (k n : nat) (d : list (nat * nat)) : list (nat * nat) :=
  match d with
  | [] => [(k, n)]
  | (k', v) :: d' =>
      if (k' =? k)%nat then (k', v + n) :: d' else (k', v) :: bump k n d'
  end.

(** [page.wordFrequency[token]], read: a [defaultdict] stores the default
    under a key it misses. *)
Definition read_count (page : WebPage) (token : string) : nat * WebPage :=
  match wordFrequency page !! token with
  | Some n => (n, page)
  | None =>
      (0, MkWebPage (url page) (content page) (<[token := 0]> (wordFrequency page)))
  end.

(** The order in which [for pageId in results] yields the ids of the set
    that the lookup of [token] returned: some list of the set's elements,
    each once. Python does not say which, and CPython's depends on how the
    posting sets were filled, so the order is given per token and set. *)
Record SetOrder : Type := MkSetOrder {
  set_iter : string → gset nat → list nat;
  set_iter_perm : ∀ token s, set_iter token s ≡ₚ elements s
}.

(** The ids in ascending order: CPython's order while the ids are below 8. *)
Definition ascending : SetOrder :=
  MkSetOrder (λ _ s, merge_sort Nat.le (elements s))
             (λ _ s, merge_sort_Permutation Nat.le (elements s)).

(** Lexicographic [<] on the sort key, a tuple of three integers. *)
Definition key_lt (a b : Z * Z * Z) : bool :=
  let '(a1, a2, a3) := a in
  let '(b1, b2, b3) := b in
  (a1 <? b1)%Z
  || ((a1 =? b1)%Z && ((a2 <? b2)%Z || ((a2 =? b2)%Z && (a3 <? b3)%Z))).

(** [sorted(items, key=key)]: Python's sort is stable, and a stable sort has
    one result, that of this insertion sort. *)
Fixpoint sorted_insert {A : Type} (key : A → Z * Z * Z) (x : A) (l : list A)
    : list A :=
  match l with
  | [] => [x]
  | y :: l' =>
      if key_lt (key y) (key x) then y :: sorted_insert key x l'
      else x :: y :: l'
  end.

Definition sorted {A : Type} (key : A → Z * Z * Z) (items : list A) : list A :=
  foldr (sorted_insert key) [] items.

Module SearchEngine.

Definition add_page (e : SearchEngine) (page : WebPage) : SearchEngine :=
  let pages := (pages e ++ [page])%list in
  let pageId := length pages - 1 in
  MkEngine pages (InvertedIndex.add_page (index e) pageId (tokenize (content page))).

Definition has_exact_match (content query : string) : bool :=
  str_in (to_lower (remove_punctuation query))
         (to_lower (remove_punctuation content)).

(** The body of the inner loop, for one [pageId] of [results]. *)
Definition visit (token : string) (st : Scan) (pageId : nat) : option Scan :=
  let counts := bump pageId 1 (pageMatchCount st) in
  page ← scan_pages st !! pageId;
  let '(n, page) := read_count page token in
  Some (MkScan (<[pageId := page]> (scan_pages st))
               counts
               (<[pageId := default 0 (pageFrequencySum st !! pageId) + n]>
                  (pageFrequencySum st))).

(** The body of the outer loop, for one query token. *)
Definition scan_token (o : SetOrder) (index : gmap string (gset nat)) (st : Scan)
    (token : string) : option Scan :=
  let results := InvertedIndex.search index token in
  for_each (visit token) st (set_iter o token results).

(** [exactMatches], the second loop. *)
Definition exact_matches (pages : list WebPage) (query : string) : list nat :=
  (List.filter (λ ip, has_exact_match (content ip.2) query)
               (imap (λ i page, (i, page)) pages)).*1.

(** The key of the ranking [lambda]. *)
Definition rank_key (exactMatches : list nat) (sums : gmap nat nat)
    (x : nat * nat) : Z * Z * Z :=
  (- Z.b2z (bool_decide (x.1 ∈ exactMatches)),
   - Z.of_nat x.2,
   - Z.of_nat (default 0%nat (sums !! x.1)))%Z.

(** [search], when sets are iterated in the order [o]: the engine after the
    call and the ranked entries in output order; [None] when an [IndexError]
    escapes. *)
Definition search (o : SetOrder) (e : SearchEngine) (query : string)
    : option (SearchEngine * list Ranked) :=
  let queryTokens := tokenize query in
  st ← for_each (scan_token o (index e)) (MkScan (pages e) [] ∅) queryTokens;
  let exactMatches := exact_matches (scan_pages st) query in
  let sortedResults :=
    sorted (rank_key exactMatches (pageFrequencySum st)) (pageMatchCount st) in
  Some (MkEngine (scan_pages st) (index e),
        (λ x, MkRanked x.1 x.2
                (default 0 (pageFrequencySum st !! x.1))
                (bool_decide (x.1 ∈ exactMatches))) <$> sortedResults).

End SearchEngine.

(** ** Word break *)

(** [s[:n]] and [s[n:]] *)
Fixpoint str_take (n : nat) (s : string) : string :=
  match n, s with
  | S n', String c rest => String c (str_take n' rest)
  | _, _ => EmptyString
  end.

Fixpoint str_drop (n : nat) (s : string) : string :=
  match n, s with
  | S n', String _ rest => str_drop n' rest
  | _, _ => s
  end.

(** [word + ("" if not sub else " " + sub)] *)
Definition join_word (word sub : string) : string :=
  word +:+ (if String.eqb sub "" then "" else " " +:+ sub).

(** The body of the loop over [end] in [word_break_helper], run with
    [depth] frames left below the helper's own; [helper] is the recursive
    call. [trie.search] needs one of these frames, and raises
    [RecursionError], [None], when there is none. *)
Definition try_prefix (depth : nat)
    (helper : string → gmap string (list string)
              → option (list string * gmap string (list string)))
    (trie : Trie) (s : string)
    (acc : list string * gmap string (list string)) (stop : nat)
    : option (list string * gmap string (list string)) :=
  let '(results, memo) := acc in
  let word := str_take stop s in
  match depth with
  | O => None
  | S _ =>
      if Trie.search trie word then
        '(subs, memo) ← helper (str_drop stop s) memo;
        Some ((results ++ (join_word word <$> subs))%list, memo)
      else Some (results, memo)
  end.

(** [word_break_helper], the memo passed through. [depth] is the number of
    frames that are left, the frame of this call among them: with none left
    the call raises [RecursionError], [None]; the recursive calls and
    [trie.search] run with one frame fewer. *)
Fixpoint word_break_helper (depth : nat) (s : string) (trie : Trie)
    (memo : gmap string (list string))
    : option (list string * gmap string (list string)) :=
  match depth with
  | O => None
  | S depth' =>
      match memo !! s with
      | Some results => Some (results, memo)
      | None =>
          if String.eqb s "" then Some ([""], memo)
          else
            '(results, memo) ←
              for_each
                (try_prefix depth'
                   (λ s' memo, word_break_helper depth' s' trie memo) trie s)
                ([], memo) (seq 1 (String.length s));
            Some (results, <[s := results]> memo)
      end
  end.

(** [word_break], called with [depth] frames left: one is its own. *)
Definition word_break (depth : nat) (s : string) (trie : Trie)
    : option (list string) :=
  match depth with
  | O => None
  | S depth' => fst <$> word_break_helper depth' s trie ∅
  end.

(** ** The program's objects and its main section *)

Record World : Type := MkWorld {
  trie : Trie;
  engine : SearchEngine
}.

Definition new_world : World := MkWorld new_trie new_engine.

(** [engine.add_page(WebPage(url, content, trie))] *)
Definition ingest (w : World) (doc : string * string) : World :=
  let '(page, trie) := WebPage_init doc.1 doc.2 (trie w) in
  MkWorld trie (SearchEngine.add_page (engine w) page).

(** [engine.search(query)] in the main loop: the state it leaves. *)
Definition query (o : SetOrder) (w : World) (q : string) : option World :=
  r ← SearchEngine.search o (engine w) q;
  Some (MkWorld (trie w) r.1).

Definition main_pages : list (string * string) :=
  [ ("https://example.com", "This is an example page with a search engine.");
    ("https://example2.com", "Another example page with algorithms and data.");
    ("https://example3.com",
     "The news are spreading quickly. Search engines use algorithms.");
    ("https://example4.com", "Exact match test: example search") ].

Definition main_world : World := foldl ingest new_world main_pages.

Definition demo_trie : Trie :=
  foldl Trie.insert new_trie ["search"; "engine"; "searches"].

(** ** The main loop and what it prints *)

(** [s.replace(" ", "")], as the main loop calls it before [word_break] *)
Fixpoint remove_spaces (s : string) : string :=
  match s with
  | EmptyString => EmptyString
  | String c rest =>
      if Ascii.eqb c " " then remove_spaces rest
      else String c (remove_spaces rest)
  end.

(** The output part of [search]: the lines it prints for the ranked entries
    it computed, read from the pages as the matching loop left them. [str]
    of a count is its decimal numeral; [None] is an [IndexError]. *)
Definition found_line (pages : list WebPage) (r : Ranked) : option string :=
  page ← pages !! pageId r;
  Some ("Found: " +:+ url page
        +:+ " (Matches: " +:+ pretty (matchCount r)
        +:+ ", Frequency Sum: " +:+ pretty (frequencySum r)
        +:+ (if exactMatch r then ", Exact Match" else "")
        +:+ ")").

Definition search_output (e : SearchEngine) (query : string) (ranked : list Ranked)
    : option (list string) :=
  match ranked with
  | [] => Some ["No results found for: " +:+ query]
  | _ :: _ => mapM (found_line (pages e)) ranked
  end.





(** * Specification vocabulary

    What the properties below are stated with. *)

(** ** The trie *)

(** [search] from a node, as [Trie.search] runs it. *)
Definition search_from (word : string) (node : TrieNode) : bool :=
  match Trie.walk word node with
  | None => false
  | Some n => is_end_of_word n
  end.

(** ** Word break *)

(** [w * n] on strings *)
Fixpoint str_repeat (w : string) (n : nat) : string :=
  match n with
  | O => ""
  | S n' => w +:+ str_repeat w n'
  end.

(** The specification's words: a segmentation of [s] is a sequence of
    non-empty words the trie knows whose concatenation is [s]; it is rendered
    with single spaces between the words. *)
Definition flatten (ws : list string) : string := foldr String.append "" ws.

Definition render (ws : list string) : string := String.concat " " ws.

Definition segmentation (trie : Trie) (s : string) (ws : list string) : Prop :=
  Forall (λ w, w ≠ "" ∧ Trie.search trie w = true) ws ∧ flatten ws = s.

(** [segs] lists every segmentation of [s], each once. *)
Definition all_segs (trie : Trie) (s : string) (segs : list (list string)) : Prop :=
  NoDup segs ∧ ∀ ws, ws ∈ segs ↔ segmentation trie s ws.

(** [segs] lists every segmentation of [s] whose first word has [stop]
    characters, each once. *)
Definition segs_from (trie : Trie) (s : string) (stop : nat)
    (segs : list (list string)) : Prop :=
  NoDup segs
  ∧ ∀ ws, ws ∈ segs ↔
      segmentation trie s ws ∧ ∃ w ws', ws = w :: ws' ∧ String.length w = stop.

(** [results] is the rendering of every segmentation of [s], each once. *)
Definition results_ok (trie : Trie) (s : string) (results : list string) : Prop :=
  ∃ segs, all_segs trie s segs ∧ results = render <$> segs.

(** Every entry of the memo is the result for its key. *)
Definition memo_ok (trie : Trie) (memo : gmap string (list string)) : Prop :=
  ∀ k results, memo !! k = Some results → results_ok trie k results.

(** ** The index and ingestion *)

(** The posting set of a token, empty when the token is not indexed. *)
Definition postings (index : gmap string (gset nat)) (token : string) : gset nat :=
  default ∅ (index !! token).

(** The words of a content that [tokenize] keeps: the words of the cleaned
    text that are not stopwords. *)
Definition content_words (content : string) : list string :=
  filter (λ word, in_stopWords word = false)
         (split (to_lower (remove_punctuation content))).

(** How often [x] occurs in a list of words. *)
Definition occurrences (x : string) (l : list string) : nat :=
  length (filter (λ y, y = x) l).

(** How many words of a list have [x] as a derived singular that differs
    from them. *)
Definition reduced_to (x : string) (l : list string) : nat :=
  length (filter (λ y, to_singular y = x ∧ y ≠ x) l).

(** The page that [WebPage.__init__] builds of a document. *)
Definition page_of (doc : string * string) : WebPage :=
  MkWebPage doc.1 doc.2 (foldl count_token ∅ (tokenize doc.2)).

(** Every id in the index is the id of a page. *)
Definition index_bounded (e : SearchEngine) : Prop :=
  ∀ token d, d ∈ postings (index e) token → d < length (pages e).

(** ** Matching and ranking *)

(** The lexicographic order that [key_lt] decides. *)
Definition key_below (a b : Z * Z * Z) : Prop :=
  (a.1.1 < b.1.1
   ∨ (a.1.1 = b.1.1 ∧ (a.1.2 < b.1.2 ∨ (a.1.2 = b.1.2 ∧ a.2 < b.2))))%Z.

(** [x] may stand before [y] in a sorted list: [y]'s key is not below. *)
Definition in_order {A : Type} (key : A → Z * Z * Z) (x y : A) : Prop :=
  key_lt (key y) (key x) = false.

(** The distinct ids of a list, in the order of their first occurrence. *)
Definition first_occurrences (l : list nat) : list nat :=
  foldl (λ seen d, if decide (d ∈ seen) then seen else seen ++ [d]) [] l.

(** How often an id occurs in a list. *)
Definition times (d : nat) (l : list nat) : nat :=
  length (filter (λ h, h = d) l).

(** The steps of the matching loop of [search], in order: each query token
    with each page id of its results, as the set order [o] yields them. *)
Definition hits (o : SetOrder) (idx : gmap string (gset nat)) (tokens : list string)
    : list (string * nat) :=
  flat_map
    (λ token, (λ d, (token, d)) <$> set_iter o token (InvertedIndex.search idx token))
    tokens.

(** The count of [token] that a page's table stores, 0 when it stores none. *)
Definition stored_count (page : WebPage) (token : string) : nat :=
  default 0 (wordFrequency page !! token).

(** Two states of a page that differ at most in keys stored with count 0. *)
Definition same_counts (p p' : WebPage) : Prop :=
  url p' = url p
  ∧ content p' = content p
  ∧ wordFrequency p ⊆ wordFrequency p'
  ∧ ∀ token, stored_count p' token = stored_count p token.

(** What one step adds to the frequency sum of page [d]. *)
Definition hit_count (ps : list WebPage) (d : nat) (h : string * nat) : nat :=
  if decide (h.2 = d)
  then default 0 ((λ page, stored_count page h.1) <$> ps !! d)
  else 0.

(** The number of query tokens, repeated ones counted again, whose lookup
    holds page [d]. *)
Definition match_count (idx : gmap string (gset nat)) (tokens : list string)
    (d : nat) : nat :=
  length (filter (λ token, d ∈ InvertedIndex.search idx token) tokens).

(** The sum, over those tokens, of the count that page [d] stores for the
    token itself. *)
Definition frequency_sum (e : SearchEngine) (tokens : list string) (d : nat) : nat :=
  sum_list
    ((λ token,
        if decide (d ∈ InvertedIndex.search (index e) token)
        then default 0 ((λ page, stored_count page token) <$> pages e !! d)
        else 0) <$> tokens).

(** Whether page [d] holds the normalized query as a substring. *)
Definition is_exact (e : SearchEngine) (q : string) (d : nat) : bool :=
  default false
    ((λ page, SearchEngine.has_exact_match (content page) q) <$> pages e !! d).

(** The matched pages in the order in which the matching loop first meets
    them, each with what the output shows of it. *)
Definition candidates (o : SetOrder) (e : SearchEngine) (q : string)
    : list Ranked :=
  (λ d, MkRanked d (match_count (index e) (tokenize q) d)
                 (frequency_sum e (tokenize q) d) (is_exact e q d))
    <$> first_occurrences (hits o (index e) (tokenize q)).*2.

(** The position, among the tokens of the query, of the first one whose
    lookup returns page [d]; the number of tokens when none does. *)
Fixpoint first_match (idx : gmap string (gset nat)) (tokens : list string)
    (d : nat) : nat :=
  match tokens with
  | [] => 0
  | token :: tokens' =>
      if decide (d ∈ InvertedIndex.search idx token) then 0
      else S (first_match idx tokens' d)
  end.

(** The sort key of a ranked entry. *)
Definition ranked_key (r : Ranked) : Z * Z * Z :=
  (- Z.b2z (exactMatch r), - Z.of_nat (matchCount r), - Z.of_nat (frequencySum r))%Z.

(** [r1] ranks at least as high as [r2]: exact match first, then the higher
    match count, then the higher frequency sum. *)
Definition ranks_no_lower (r1 r2 : Ranked) : Prop :=
  (exactMatch r1 = true ∧ exactMatch r2 = false)
  ∨ (exactMatch r1 = exactMatch r2
     ∧ (matchCount r2 < matchCount r1
        ∨ (matchCount r1 = matchCount r2 ∧ frequencySum r2 ≤ frequencySum r1))).

(** [r2] ties with [r1] on the three keys. *)
Definition ties_with (r1 r2 : Ranked) : Prop :=
  exactMatch r2 = exactMatch r1
  ∧ matchCount r2 = matchCount r1
  ∧ frequencySum r2 = frequencySum r1.

#[local] Instance ties_with_dec (r1 r2 : Ranked) : Decision (ties_with r1 r2).
Proof. unfold ties_with. apply _. Defined.

(** ** Further vocabulary: the trie's words *)







(** ** Further vocabulary: the ranked output *)

(** The entry of page [d] in a ranked output, if it has one. *)
Definition entry_of (ranked : list Ranked) (d : nat) : option Ranked :=
  head (filter (λ r, pageId r = d) ranked).

(** The match count and the frequency sum that the output shows of page
    [d]: 0 when the page is not listed. *)
Definition shown_matches (ranked : list Ranked) (d : nat) : nat :=
  default 0 (matchCount <$> entry_of ranked d).

Definition shown_sum (ranked : list Ranked) (d : nat) : nat :=
  default 0 (frequencySum <$> entry_of ranked d).

(** ** Further vocabulary: the main loop *)


(** ** Further vocabulary: normalized text *)

(** The characters a token is made of: lowercase ASCII letters and digits. *)
Definition is_token_char (c : ascii) : bool :=
  char_between "a" "z" c || char_between "0" "9" c.

(** Every character of a string passes a test. *)
Fixpoint str_forall (P : ascii → bool) (s : string) : bool :=
  match s with
  | EmptyString => true
  | String c rest => P c && str_forall P rest
  end.

(** A token as [tokenize] emits it: not empty, made of token characters. *)
Definition normal_token (t : string) : Prop :=
  t ≠ "" ∧ str_forall is_token_char t = true.

(** ** Further vocabulary: frequency tables *)

(** Page [d] of [ps] holds key [t] in its frequency table. *)
Definition holds_key (ps : list WebPage) (d : nat) (t : string) : Prop :=
  ∃ p, ps !! d = Some p ∧ is_Some (wordFrequency p !! t).

(** * Properties *)

(** ** The model on the program's own text *)

Example tokenize_main_page_3 :
  tokenize "The news are spreading quickly. Search engines use algorithms."
  = ["news"; "new"; "are"; "spreading"; "quickly"; "search"; "engines";
     "engine"; "use"; "algorithms"; "algorithm"].
Proof. by vm_compute. Qed.

Example to_singular_rule :
  to_singular <$> ["stories"; "ies"; "engines"; "s"; "this"; "page"]
  = ["story"; "ie"; "engine"; "s"; "thi"; "page"].
Proof. by vm_compute. Qed.

(** Below exam lie the nodes of p, l, e and s: with its own frame
    [autocomplete] needs six. *)
Example autocomplete_example :
  let t := foldl Trie.insert new_trie ["example"; "examples"] in
  Trie.autocomplete 6 t "exam" = Some ["example"; "examples"]
  ∧ Trie.autocomplete 5 t "exam" = None
  ∧ Trie.autocomplete 999 main_world.(trie) "sea" = Some ["search"]
  ∧ Trie.autocomplete 1 main_world.(trie) "zz" = Some [].
Proof. by vm_compute. Qed.

Example exact_match_ranks_first :
  snd <$> SearchEngine.search ascending (engine main_world) "example search"
  = Some [MkRanked 3 2 2 true; MkRanked 0 2 2 false;
          MkRanked 1 1 1 false; MkRanked 2 1 1 false].
Proof. by vm_compute. Qed.

(** ** The trie *)

Section TrieFacts.

Implicit Types (c k : ascii) (ch : list (ascii * TrieNode)) (node : TrieNode).

Lemma child_get_alter f c k ch :
  child_get k (child_alter f c ch)
  = if Ascii.eqb c k then f <$> child_get c ch else child_get k ch.
Proof.
  induction ch as [|[k' n] ch IH]; simpl.
  - by destruct (Ascii.eqb c k).
  - destruct (Ascii.eqb k' c) eqn:Hkc; simpl.
    + apply Ascii.eqb_eq in Hkc as ->.
      by destruct (Ascii.eqb c k).
    + rewrite IH. destruct (Ascii.eqb k' k) eqn:Hkk; [|done].
      apply Ascii.eqb_eq in Hkk as ->. by rewrite Ascii.eqb_sym, Hkc.
Qed.

Lemma child_get_snoc c k node ch :
  child_get k (ch ++ [(c, node)])
  = match child_get k ch with
    | Some n => Some n
    | None => if Ascii.eqb c k then Some node else None
    end.
Proof.
  induction ch as [|[k' n] ch IH]; simpl; [done|].
  by destruct (Ascii.eqb k' k).
Qed.

Lemma child_get_ensure c k ch :
  child_get k (child_ensure c ch)
  = match child_get k ch with
    | Some n => Some n
    | None => if Ascii.eqb c k then Some new_node else None
    end.
Proof.
  unfold child_ensure. destruct (child_get c ch) eqn:Hc.
  - destruct (child_get k ch) eqn:Hk; [done|].
    destruct (Ascii.eqb c k) eqn:Hck; [|done].
    apply Ascii.eqb_eq in Hck as ->. congruence.
  - apply child_get_snoc.
Qed.

Lemma child_ensure_idem c ch :
  child_ensure c (child_ensure c ch) = child_ensure c ch.
Proof.
  unfold child_ensure at 1. rewrite child_get_ensure.
  destruct (child_get c ch); [done|]. by rewrite Ascii.eqb_refl.
Qed.

Lemma child_ensure_alter f c ch :
  child_ensure c (child_alter f c (child_ensure c ch))
  = child_alter f c (child_ensure c ch).
Proof.
  unfold child_ensure at 1.
  rewrite child_get_alter, Ascii.eqb_refl, child_get_ensure.
  destruct (child_get c ch); [done|]. by rewrite Ascii.eqb_refl.
Qed.

Lemma child_alter_twice f c ch :
  (∀ n, f (f n) = f n) →
  child_alter f c (child_alter f c ch) = child_alter f c ch.
Proof.
  intros Hf. induction ch as [|[k n] ch IH]; simpl; [done|].
  destruct (Ascii.eqb k c) eqn:Hkc; simpl; rewrite Hkc.
  - by rewrite Hf.
  - by rewrite IH.
Qed.

(** Inserting a word a second time rebuilds the same node. *)
Lemma insert_from_idem word node :
  Trie.insert_from word (Trie.insert_from word node) = Trie.insert_from word node.
Proof.
  revert node. induction word as [|c rest IH]; intros [e ch]; simpl; [done|].
  f_equal. rewrite child_ensure_alter. by apply child_alter_twice.
Qed.

Lemma insert_idem trie word :
  Trie.insert (Trie.insert trie word) word = Trie.insert trie word.
Proof. unfold Trie.insert. simpl. by rewrite insert_from_idem. Qed.

Lemma search_from_cons c rest node :
  search_from (String c rest) node
  = match child_get c (children node) with
    | None => false
    | Some n => search_from rest n
    end.
Proof. unfold search_from. simpl. by destruct (child_get c (children node)). Qed.

Lemma search_from_new_node word : search_from word new_node = false.
Proof. by destruct word. Qed.

(** The words a node knows after an insertion: the new one, and the old. *)
Lemma search_from_insert word word' node :
  search_from word' (Trie.insert_from word node)
  = String.eqb word word' || search_from word' node.
Proof.
  revert word' node.
  induction word as [|c rest IH]; intros [|c' rest'] [e ch]; try done.
  rewrite !search_from_cons. simpl.
  rewrite child_get_alter.
  destruct (Ascii.eqb c c') eqn:Hc.
  - apply Ascii.eqb_eq in Hc as <-. rewrite child_get_ensure.
    destruct (child_get c ch) as [n|]; simpl.
    + apply IH.
    + by rewrite Ascii.eqb_refl; simpl; rewrite IH, search_from_new_node.
  - rewrite child_get_ensure, Hc. by destruct (child_get c' ch).
Qed.

Lemma search_insert trie word word' :
  Trie.search (Trie.insert trie word) word'
  = String.eqb word word' || Trie.search trie word'.
Proof. apply search_from_insert. Qed.

Lemma search_foldl_insert trie words word :
  Trie.search (foldl Trie.insert trie words) word
  = bool_decide (word ∈ words) || Trie.search trie word.
Proof.
  revert trie. induction words as [|w words IH]; intros trie; simpl; [done|].
  rewrite IH, search_insert.
  destruct (String.eqb w word) eqn:Hw.
  - apply String.eqb_eq in Hw as ->.
    rewrite (bool_decide_eq_true_2 (word ∈ word :: words)) by left.
    simpl. apply orb_true_r.
  - apply String.eqb_neq in Hw. simpl.
    f_equal. apply bool_decide_ext. rewrite elem_of_cons.
    split; [by right | intros [?|?]; [congruence|done]].
Qed.

End TrieFacts.

(** C8. Inserting a token a second time changes nothing that can be asked
    of the trie: after [insert w; insert w], [search] and [autocomplete]
    answer every question as they do after one [insert w], whatever the
    number of frames that [autocomplete] is given. *)
Theorem trie_insert_idempotent (trie : Trie) (w q : string) (depth : nat) :
  let once := Trie.insert trie w in
  let twice := Trie.insert once w in
  Trie.search twice q = Trie.search once q
  ∧ Trie.autocomplete depth twice q = Trie.autocomplete depth once q.
Proof. simpl. by rewrite insert_idem. Qed.

(** ** Word break *)

Section StringFacts.

Lemma string_app_cons (c : ascii) (s1 s2 : string) :
  String c s1 +:+ s2 = String c (s1 +:+ s2).
Proof. reflexivity. Qed.

Lemma string_app_nil_l (s : string) : "" +:+ s = s.
Proof. reflexivity. Qed.

Lemma string_app_nil_r (s : string) : s +:+ "" = s.
Proof. induction s; rewrite ?string_app_cons, ?string_app_nil_l; congruence. Qed.

Lemma string_length_app (s1 s2 : string) :
  String.length (s1 +:+ s2) = String.length s1 + String.length s2.
Proof.
  induction s1; rewrite ?string_app_cons, ?string_app_nil_l; simpl; congruence.
Qed.

Lemma str_take_drop (n : nat) (s : string) : str_take n s +:+ str_drop n s = s.
Proof.
  revert s. induction n as [|n IH]; intros [|c s]; simpl; try done.
  by rewrite string_app_cons, IH.
Qed.

Lemma str_take_app (w x : string) : str_take (String.length w) (w +:+ x) = w.
Proof.
  induction w; rewrite ?string_app_cons, ?string_app_nil_l; simpl;
    [by destruct x|congruence].
Qed.

Lemma str_drop_app (w x : string) : str_drop (String.length w) (w +:+ x) = x.
Proof.
  induction w; rewrite ?string_app_cons, ?string_app_nil_l; simpl;
    [by destruct x|congruence].
Qed.

Lemma str_drop_length (n : nat) (s : string) :
  String.length (str_drop n s) = String.length s - n.
Proof. revert s. induction n as [|n IH]; intros [|c s]; simpl; auto. Qed.

Lemma str_take_length (n : nat) (s : string) :
  n ≤ String.length s → String.length (str_take n s) = n.
Proof.
  revert s. induction n as [|n IH]; intros [|c s]; simpl; try done; try lia.
  intros ?. rewrite IH; lia.
Qed.

Lemma string_length_0 (s : string) : String.length s = 0 → s = "".
Proof. by destruct s. Qed.

End StringFacts.

Section WordBreak.

Variable trie : Trie.

Implicit Types (s w : string) (ws : list string) (segs : list (list string))
  (memo : gmap string (list string)).

Lemma segmentation_nil s : segmentation trie s [] ↔ s = "".
Proof. unfold segmentation. simpl. split; [by intros [_ <-]|by intros ->]. Qed.

Lemma segmentation_cons s w ws :
  segmentation trie s (w :: ws) ↔
    w ≠ "" ∧ Trie.search trie w = true
    ∧ w = str_take (String.length w) s
    ∧ segmentation trie (str_drop (String.length w) s) ws.
Proof.
  unfold segmentation. simpl. rewrite Forall_cons. split.
  - intros [[[Hw Hk] Hws] <-].
    by rewrite str_take_app, str_drop_app.
  - intros (Hw & Hk & Htake & Hws & Hflat).
    repeat split; try done.
    rewrite Hflat, Htake at 1. apply str_take_drop.
Qed.

Lemma segmentation_empty ws : segmentation trie "" ws ↔ ws = [].
Proof.
  split; [|intros ->; by apply segmentation_nil].
  destruct ws as [|w ws]; [done|].
  rewrite segmentation_cons. intros (Hw & _ & Htake & _).
  destruct w; [done|]. by destruct (String.length (String a w)).
Qed.

Lemma render_nonempty w ws : w ≠ "" → render (w :: ws) ≠ "".
Proof.
  unfold render. destruct w as [|c w]; [done|]. intros _.
  by destruct ws.
Qed.

(** The output's way of putting a word in front is [" ".join]'s. *)
Lemma join_word_render w s ws :
  segmentation trie s ws → join_word w (render ws) = render (w :: ws).
Proof.
  intros [Hws _]. unfold join_word. destruct ws as [|w' ws].
  - simpl. apply string_app_nil_r.
  - apply Forall_cons in Hws as [[Hw' _] _].
    apply (render_nonempty _ ws) in Hw'.
    apply String.eqb_neq in Hw'. by rewrite Hw'.
Qed.

Section Loop.

Variable s : string.
Variable depth : nat.
Variable helper :
  string → gmap string (list string)
  → option (list string * gmap string (list string)).

(** A frame is left for [trie.search]. *)
Hypothesis depth_pos : 0 < depth.

(** What the loop needs of the recursive call: on a shorter string it
    returns, and it keeps a sound memo sound. *)
Hypothesis helper_ok : ∀ s' memo,
  String.length s' < String.length s →
  ∃ r memo', helper s' memo = Some (r, memo')
             ∧ (memo_ok trie memo → results_ok trie s' r ∧ memo_ok trie memo').

Lemma try_prefix_ok (acc : list string) memo (stop : nat) :
  1 ≤ stop ≤ String.length s →
  ∃ r memo', try_prefix depth helper trie s (acc, memo) stop = Some (r, memo')
    ∧ (memo_ok trie memo →
       memo_ok trie memo'
       ∧ ∃ segs, segs_from trie s stop segs ∧ r = acc ++ (render <$> segs)).
Proof.
  intros Hstop. unfold try_prefix.
  destruct depth as [|depth']; [lia|].
  pose proof (str_take_length stop s ltac:(lia)) as Hlen.
  destruct (Trie.search trie (str_take stop s)) eqn:Hknown.
  - destruct (helper_ok (str_drop stop s) memo) as (subs & memo' & -> & Hsub).
    { rewrite str_drop_length. lia. }
    simpl. eexists _, _. split; [done|]. intros Hmemo.
    destruct (Hsub Hmemo) as [(segs' & [Hnd Hin] & ->) Hmemo'].
    split; [done|]. exists ((str_take stop s ::.) <$> segs').
    split; [split|].
    + apply NoDup_fmap_2; [|done]. by intros ?? [=].
    + intros ws. rewrite list_elem_of_fmap. split.
      * intros (ws' & -> & Hws'). split; [|eauto].
        apply segmentation_cons. rewrite Hlen.
        split; [|split; [done|split; [done|by apply Hin]]].
        intros Hnil. rewrite Hnil in Hlen. simpl in Hlen. lia.
      * intros [Hseg (w & ws' & -> & Hw)].
        apply segmentation_cons in Hseg as (_ & _ & Htake & Hseg).
        rewrite Hw in Htake, Hseg. exists ws'. split; [by rewrite Htake|].
        by apply Hin.
    + f_equal. rewrite <- !list_fmap_compose.
      apply Forall_fmap_ext, Forall_forall. intros ws' Hws'. simpl.
      eapply join_word_render. by apply Hin.
  - eexists _, _. split; [done|]. intros Hmemo. split; [done|].
    exists []. split; [split|].
    + constructor.
    + intros ws. split; [by intros ?%elem_of_nil|].
      intros [Hseg (w & ws' & -> & Hw)].
      apply segmentation_cons in Hseg as (_ & Hk & Htake & _).
      rewrite Hw in Htake. congruence.
    + by rewrite app_nil_r.
Qed.

Lemma loop_ok (stops : list nat) :
  Forall (λ stop, 1 ≤ stop ≤ String.length s) stops →
  ∀ (acc : list string) memo,
  ∃ r memo',
    for_each (try_prefix depth helper trie s) (acc, memo) stops = Some (r, memo')
    ∧ (memo_ok trie memo →
       memo_ok trie memo'
       ∧ ∃ segss, Forall2 (segs_from trie s) stops segss
                  ∧ r = acc ++ (render <$> concat segss)).
Proof.
  induction 1 as [|stop stops Hstop _ IH]; intros acc memo; cbn [for_each].
  - eexists _, _. split; [done|]. intros Hmemo. split; [done|].
    exists []. split; [constructor|]. simpl. by rewrite app_nil_r.
  - destruct (try_prefix_ok acc memo stop Hstop) as (r1 & memo1 & -> & H1).
    destruct (IH r1 memo1) as (r & memo' & -> & H2).
    eexists _, _. split; [done|]. intros Hmemo.
    destruct (H1 Hmemo) as (Hmemo1 & segs & Hsegs & ->).
    destruct (H2 Hmemo1) as (Hmemo' & segss & Hsegss & ->).
    split; [done|]. exists (segs :: segss). split; [by constructor|].
    simpl. by rewrite fmap_app, app_assoc.
Qed.

End Loop.

Lemma segs_from_concat s (stops : list nat) (segss : list (list (list string))) :
  NoDup stops →
  Forall2 (segs_from trie s) stops segss →
  NoDup (concat segss)
  ∧ ∀ ws, ws ∈ concat segss ↔
      segmentation trie s ws
      ∧ ∃ w ws', ws = w :: ws' ∧ String.length w ∈ stops.
Proof.
  intros Hnd Hall. induction Hall as [|stop segs stops segss [Hnd1 Hin1] _ IH].
  - split; [constructor|]. intros ws. simpl. split; [by intros ?%elem_of_nil|].
    by intros (_ & ? & ? & _ & ?%elem_of_nil).
  - apply NoDup_cons in Hnd as [Hstop Hnd].
    destruct (IH Hnd) as [Hnd2 Hin2]. simpl. split.
    + apply NoDup_app. repeat split; [done| |done].
      intros ws (_ & w & ws' & -> & Hw)%Hin1 (_ & w' & ws'' & [= <- <-] & Hw')%Hin2.
      congruence.
    + intros ws. rewrite elem_of_app, Hin1, Hin2. split.
      * intros [(? & w & ws' & -> & <-)|(? & w & ws' & -> & ?)];
          (split; [done|]); exists w, ws'; split; try done;
          [by left|by right].
      * intros (? & w & ws' & -> & [<-|?]%elem_of_cons); [left|right]; eauto.
Qed.

(** The helper returns whenever more frames are left than [s] has
    characters, and from a sound memo it returns every segmentation of [s],
    each once. *)
Lemma word_break_helper_spec (depth : nat) : ∀ s memo,
  String.length s < depth →
  ∃ r memo', word_break_helper depth s trie memo = Some (r, memo')
             ∧ (memo_ok trie memo → results_ok trie s r ∧ memo_ok trie memo').
Proof.
  induction depth as [|d IH]; intros s memo Hdepth; [lia|]. simpl.
  destruct (memo !! s) as [r|] eqn:Hm.
  { eexists _, _. split; [done|]. intros Hmemo. split; [|done]. by eapply Hmemo. }
  destruct (String.eqb s "") eqn:Hs.
  { apply String.eqb_eq in Hs as ->. eexists _, _. split; [done|].
    intros Hmemo. split; [|done]. exists [[]]. split; [split|done].
    - apply NoDup_singleton.
    - intros ws. by rewrite list_elem_of_singleton, segmentation_empty. }
  apply String.eqb_neq in Hs.
  assert (0 < String.length s) as Hpos by (destruct s; [done|simpl; lia]).
  destruct (loop_ok s d (λ s' memo, word_break_helper d s' trie memo))
    with (stops := seq 1 (String.length s)) (acc := @nil string) (memo := memo)
    as (r & memo' & -> & Hloop).
  { lia. }
  { intros s' memo0 Hlt. apply IH. lia. }
  { apply Forall_forall. intros stop ?%elem_of_seq. lia. }
  simpl. eexists _, _. split; [done|]. intros Hmemo.
  destruct (Hloop Hmemo) as (Hmemo' & segss & Hsegss & ->).
  destruct (segs_from_concat s _ _ (NoDup_seq _ _) Hsegss) as [Hnd Hin].
  assert (results_ok trie s (render <$> concat segss)) as Hok.
  { exists (concat segss). split; [split|done]; [done|].
    intros ws. rewrite Hin. split; [by intros [? _]|]. intros Hseg.
    split; [done|]. destruct ws as [|w ws].
    - by apply segmentation_nil in Hseg.
    - exists w, ws. split; [done|]. apply elem_of_seq.
      pose proof Hseg as [_ Hflat]. simpl in Hflat.
      apply (f_equal String.length) in Hflat. rewrite string_length_app in Hflat.
      apply segmentation_cons in Hseg as (Hw & _).
      destruct w; [done|]. simpl in *. lia. }
  split; [done|]. intros k results. rewrite lookup_insert.
  case_decide as Hk; [|by apply Hmemo'].
  intros [= <-]. by rewrite <- Hk.
Qed.

(** More frames change no result: a call that returns with [depth] frames
    left returns the same with more. *)
Lemma for_each_impl {S A : Type} (body body' : S → A → option S)
    (items : list A) :
  (∀ st x st', body st x = Some st' → body' st x = Some st') →
  ∀ st r, for_each body st items = Some r → for_each body' st items = Some r.
Proof.
  intros Himpl. induction items as [|x items IH]; intros st r; simpl; [done|].
  destruct (body st x) as [st'|] eqn:Hbody; [|done].
  rewrite (Himpl _ _ _ Hbody). apply IH.
Qed.

Lemma word_break_helper_mono (depth : nat) : ∀ depth' s memo r,
  depth ≤ depth' →
  word_break_helper depth s trie memo = Some r →
  word_break_helper depth' s trie memo = Some r.
Proof.
  induction depth as [|d IH]; intros depth' s memo r Hle; [done|].
  destruct depth' as [|d']; [lia|]. simpl.
  destruct (memo !! s); [done|]. destruct (String.eqb s ""); [done|].
  destruct (for_each (try_prefix d _ trie s) _ _) as [[res memo1]|] eqn:Hloop;
    [|done].
  simpl. intros [= <-].
  assert (∀ st x st',
            try_prefix d (λ s' memo, word_break_helper d s' trie memo) trie s st x
            = Some st' →
            try_prefix d' (λ s' memo, word_break_helper d' s' trie memo) trie s st x
            = Some st') as Hbody; [|by rewrite (for_each_impl _ _ _ Hbody _ _ Hloop)].
  intros [acc m] stop st'. unfold try_prefix.
  destruct d as [|d0]; [done|]. destruct d' as [|d0']; [lia|].
  destruct (Trie.search trie (str_take stop s)); [|done].
  destruct (word_break_helper (S d0) (str_drop stop s) trie m) as [sub|] eqn:Hsub;
    [|done].
  by rewrite (IH (S d0') _ _ _ ltac:(lia) Hsub).
Qed.

(** Whenever the helper returns, from a sound memo, it returns every
    segmentation of [s], each once. *)
Lemma word_break_helper_sound (depth : nat) s memo r memo' :
  word_break_helper depth s trie memo = Some (r, memo') →
  memo_ok trie memo → results_ok trie s r ∧ memo_ok trie memo'.
Proof.
  intros Hrun.
  destruct (word_break_helper_spec (depth + S (String.length s)) s memo)
    as (r2 & memo2 & Hbig & Hok); [lia|].
  rewrite (word_break_helper_mono depth (depth + S (String.length s)) _ _ _
             ltac:(lia) Hrun) in Hbig.
  by injection Hbig as <- <-.
Qed.

(** A string that starts with as many words as frames are left is too deep
    for the helper. *)
Lemma word_break_helper_too_deep (depth : nat) (rest : string) :
  Trie.search trie "a" = true →
  word_break_helper depth (str_repeat "a" depth +:+ rest) trie ∅ = None.
Proof.
  intros Ha. induction depth as [|d IH]; [done|].
  cbn [str_repeat]. rewrite !string_app_cons, string_app_nil_l.
  cbn [word_break_helper]. rewrite lookup_empty.
  cbn [String.eqb String.length seq for_each].
  unfold try_prefix at 1. destruct d as [|d0]; [done|].
  cbn [str_take str_drop]. rewrite Ha. by rewrite IH.
Qed.

(** What [word_break] returns when as many frames are left as its own and
    the helper's on [s]. *)
Lemma word_break_spec (depth : nat) s :
  String.length s + 2 ≤ depth →
  ∃ segs, word_break depth s trie = Some (render <$> segs) ∧ all_segs trie s segs.
Proof.
  intros Hdepth. destruct depth as [|d]; [lia|]. unfold word_break.
  destruct (word_break_helper_spec d s ∅) as (r & memo' & -> & Hok); [lia|].
  destruct Hok as [(segs & Hsegs & ->) _]; [|by exists segs].
  intros k results. by rewrite lookup_empty.
Qed.

(** What [word_break] returns whenever it returns. *)
Lemma word_break_sound (depth : nat) s outs :
  word_break depth s trie = Some outs →
  ∃ segs, outs = render <$> segs ∧ all_segs trie s segs.
Proof.
  destruct depth as [|d]; [done|]. unfold word_break.
  destruct (word_break_helper d s trie ∅) as [[r memo']|] eqn:Hrun; [|done].
  intros [= <-].
  destruct (word_break_helper_sound d s ∅ r memo' Hrun) as [(segs & ? & ->) _];
    [|by exists segs].
  intros k results. by rewrite lookup_empty.
Qed.

(** One frame too few: over a trie that knows the word a, [word_break]
    raises on every string that starts with as many a as frames are left
    below its own. *)
Lemma word_break_too_deep (depth : nat) (rest : string) :
  Trie.search trie "a" = true →
  word_break (S depth) (str_repeat "a" depth +:+ rest) trie = None.
Proof. intros Ha. unfold word_break. by rewrite word_break_helper_too_deep. Qed.

End WordBreak.

Lemma str_repeat_a_forall (n : nat) :
  str_forall (Ascii.eqb "a") (str_repeat "a" n) = true.
Proof.
  induction n as [|n IH]; [done|].
  cbn [str_repeat]. by rewrite string_app_cons, string_app_nil_l.
Qed.

Lemma str_forall_app (P : ascii → bool) (s1 s2 : string) :
  str_forall P (s1 +:+ s2) = str_forall P s1 && str_forall P s2.
Proof.
  induction s1 as [|c s1 IH]; rewrite ?string_app_cons, ?string_app_nil_l; simpl;
    [done|]. by rewrite IH, andb_assoc.
Qed.

(** Over the trie of the one word a, a segmentation is a sequence of a. *)
Lemma segmentation_of_a (s : string) (ws : list string) :
  segmentation (Trie.insert new_trie "a") s ws →
  str_forall (Ascii.eqb "a") s = true.
Proof.
  intros [Hws <-]. induction ws as [|w ws IH]; [done|].
  apply Forall_cons in Hws as [[_ Hw] Hws]. simpl.
  rewrite str_forall_app, (IH Hws), andb_true_r.
  rewrite search_insert in Hw.
  change (Trie.search new_trie w) with (search_from w new_node) in Hw.
  rewrite search_from_new_node, orb_false_r in Hw.
  by apply String.eqb_eq in Hw as <-.
Qed.

(** C7, as the code has it. With at least two frames more than [s] has
    characters, [word_break] returns exactly the segmentations of [s] over
    the trie's words, each once and rendered with spaces; the empty string
    has the one empty segmentation; a string with no segmentation gives the
    empty list, not a fault; and over the words search, engine and searches
    the string searchengine has the single segmentation search engine. *)
Theorem word_break_all_segmentations (depth : nat) (s : string) (trie : Trie) :
  String.length s + 2 ≤ depth →
  (∃ segs, word_break depth s trie = Some (render <$> segs)
           ∧ NoDup segs
           ∧ ∀ ws, ws ∈ segs ↔ segmentation trie s ws)
  ∧ word_break depth "" trie = Some [""]
  ∧ ((∀ ws, ¬ segmentation trie s ws) → word_break depth s trie = Some [])
  ∧ word_break 14 "searchengine" demo_trie = Some ["search engine"]
  ∧ word_break 5 "xyz" demo_trie = Some [].
Proof.
  intros Hdepth.
  destruct (word_break_spec trie depth s Hdepth) as (segs & Hrun & Hnd & Hin).
  split; [by exists segs|]. split; [|split; [|by vm_compute]].
  - destruct depth as [|[|d]]; [lia|lia|done].
  - intros Hnone. rewrite Hrun.
    destruct segs as [|ws segs]; [done|].
    destruct (Hnone ws). apply Hin. by left.
Qed.

Lemma word_break_all_segmentations_witness :
  (∃ segs, word_break 999 "searchengine" demo_trie = Some (render <$> segs)
           ∧ NoDup segs
           ∧ ∀ ws, ws ∈ segs ↔ segmentation demo_trie "searchengine" ws)
  ∧ word_break 999 "" demo_trie = Some [""]
  ∧ ((∀ ws, ¬ segmentation demo_trie "searchengine" ws) →
     word_break 999 "searchengine" demo_trie = Some [])
  ∧ word_break 14 "searchengine" demo_trie = Some ["search engine"]
  ∧ word_break 5 "xyz" demo_trie = Some [].
Proof.
  apply (word_break_all_segmentations 999 "searchengine" demo_trie).
  simpl. lia.
Defined.

(** C7, as stated, fails: with 999 frames left, as under a recursion limit
    of 1000 at the top of a program, [word_break] raises [RecursionError]
    on the string of 998 a over the trie of the one word a, which has a
    segmentation, and on that string followed by b, which has none and for
    which the claim promises the empty list. *)
Lemma word_break_raises_on_long_input :
  word_break 999 (str_repeat "a" 998) (Trie.insert new_trie "a") = None
  ∧ segmentation (Trie.insert new_trie "a") (str_repeat "a" 998)
                 (replicate 998 "a")
  ∧ word_break 999 (str_repeat "a" 998 +:+ "b") (Trie.insert new_trie "a") = None
  ∧ ¬ ∃ ws, segmentation (Trie.insert new_trie "a") (str_repeat "a" 998 +:+ "b") ws.
Proof.
  split; [|split; [|split]].
  - rewrite <- (string_app_nil_r (str_repeat "a" 998)).
    by apply word_break_too_deep.
  - split; [|by vm_compute].
    apply Forall_forall. intros w ->%elem_of_replicate_inv. by split.
  - by apply word_break_too_deep.
  - intros [ws Hseg%segmentation_of_a].
    rewrite str_forall_app, str_repeat_a_forall in Hseg. discriminate Hseg.
Qed.

(** C10, as the code has it. Every recursive call of [word_break_helper]
    is on [s[end:]] with [end >= 1], a strictly shorter suffix, so on a
    string of [n] characters the recursion is at most [n + 1] calls deep:
    the helper returns, whatever the memo holds, when that many frames are
    left, and [word_break] returns a list when one more is left for its own
    call. No smaller number of frames is enough for every string: with
    [depth] frames below its own, [word_break] raises on [depth] times a
    over the trie of the word a. *)
Theorem word_break_terminates (s : string) (trie : Trie)
    (memo : gmap string (list string)) (extra : nat) :
  (∃ results memo',
     word_break_helper (S (String.length s) + extra) s trie memo
     = Some (results, memo'))
  ∧ (∀ stop, stop ∈ seq 1 (String.length s) →
       String.length (str_drop stop s) < String.length s)
  ∧ (∃ results, word_break (S (S (String.length s)) + extra) s trie = Some results)
  ∧ ∀ depth,
      word_break (S depth) (str_repeat "a" depth) (Trie.insert new_trie "a") = None.
Proof.
  split; [|split; [|split]].
  - destruct (word_break_helper_spec trie (S (String.length s) + extra) s memo)
      as (r & memo' & Heq & _); [lia|]. eauto.
  - intros stop Hstop%elem_of_seq. rewrite str_drop_length. lia.
  - destruct (word_break_spec trie (S (S (String.length s)) + extra) s)
      as (segs & -> & _); [lia|]. eauto.
  - intros depth. rewrite <- (string_app_nil_r (str_repeat "a" depth)).
    by apply word_break_too_deep.
Qed.

(** C10, as stated, fails: the helper is not total. With 998 frames left,
    as [word_break] leaves it under a recursion limit of 1000 at the top of
    a program, it raises [RecursionError] on the string of 998 a over the
    trie of the one word a, whatever the memo is at the keys it asks for;
    and so does [word_break]. *)
Lemma word_break_helper_overflows :
  word_break_helper 998 (str_repeat "a" 998) (Trie.insert new_trie "a") ∅ = None
  ∧ word_break 999 (str_repeat "a" 998) (Trie.insert new_trie "a") = None
  ∧ String.length (str_repeat "a" 998) = 998.
Proof.
  split; [|split; [|by vm_compute]].
  - rewrite <- (string_app_nil_r (str_repeat "a" 998)).
    by apply word_break_helper_too_deep.
  - rewrite <- (string_app_nil_r (str_repeat "a" 998)).
    by apply word_break_too_deep.
Qed.

(** ** The inverted index *)

Section IndexFacts.

Implicit Types (index : gmap string (gset nat)) (token t : string) (d : nat).

Lemma search_postings index token :
  InvertedIndex.search index token
  = postings index (to_lower token) ∪ postings index (to_singular (to_lower token)).
Proof.
  unfold InvertedIndex.search, postings.
  destruct (index !! to_lower token), (index !! to_singular (to_lower token));
    simpl; set_solver.
Qed.

Lemma postings_add_posting index d token t :
  postings (InvertedIndex.add_posting d index token) t
  = postings index t ∪ (if bool_decide (t = token) then {[d]} else ∅).
Proof.
  unfold InvertedIndex.add_posting, postings. rewrite lookup_insert.
  case_decide as Heq.
  - subst. rewrite bool_decide_eq_true_2 by done. done.
  - rewrite bool_decide_eq_false_2 by done. set_solver.
Qed.

Lemma postings_add_page index d (tokens : list string) t :
  postings (InvertedIndex.add_page index d tokens) t
  = postings index t ∪ (if bool_decide (t ∈ tokens) then {[d]} else ∅).
Proof.
  unfold InvertedIndex.add_page. revert index.
  induction tokens as [|token tokens IH]; intros index; simpl.
  - set_solver.
  - rewrite IH, postings_add_posting.
    destruct (decide (t = token)) as [->|Hne].
    + rewrite bool_decide_eq_true_2 by done.
      rewrite (bool_decide_eq_true_2 (token ∈ token :: tokens)) by left.
      case_bool_decide; set_solver.
    + rewrite (bool_decide_eq_false_2 (t = token)) by done.
      rewrite (bool_decide_ext (t ∈ token :: tokens) (t ∈ tokens)).
      * set_solver.
      * rewrite elem_of_cons. split; [by intros [?|?]|by right].
Qed.

(** A page is found under every token of its content, whether the query
    token is that token or has it as its derived singular. *)
Lemma add_page_found (e : SearchEngine) (page : WebPage) (q t : string) :
  t ∈ tokenize (content page) →
  to_lower q = t ∨ to_singular (to_lower q) = t →
  length (pages e)
    ∈ InvertedIndex.search (index (SearchEngine.add_page e page)) q.
Proof.
  intros Ht Hq. rewrite search_postings. simpl.
  rewrite !postings_add_page, length_app. simpl.
  replace (length (pages e) + 1 - 1) with (length (pages e)) by lia.
  destruct Hq as [<-|<-]; rewrite (bool_decide_eq_true_2 _ Ht); set_solver.
Qed.

End IndexFacts.

(** ** Ingestion *)

Section IngestFacts.

Lemma foldl_count_insert (tokens : list string) (freq : gmap string nat)
    (trie : Trie) :
  foldl (λ '(freq, trie) token, (count_token freq token, Trie.insert trie token))
        (freq, trie) tokens
  = (foldl count_token freq tokens, foldl Trie.insert trie tokens).
Proof.
  revert freq trie. induction tokens as [|t tokens IH]; intros; simpl; [done|].
  apply IH.
Qed.

Lemma WebPage_init_eq (url content : string) (trie : Trie) :
  WebPage_init url content trie
  = (MkWebPage url content (foldl count_token ∅ (tokenize content)),
     foldl Trie.insert trie (tokenize content)).
Proof. unfold WebPage_init. by rewrite foldl_count_insert. Qed.

Lemma ingest_eq (w : World) (doc : string * string) :
  ingest w doc
  = MkWorld (foldl Trie.insert (trie w) (tokenize doc.2))
            (SearchEngine.add_page (engine w)
               (MkWebPage doc.1 doc.2 (foldl count_token ∅ (tokenize doc.2)))).
Proof. unfold ingest. by rewrite WebPage_init_eq. Qed.

End IngestFacts.

(** C5, as the code has it. [InvertedIndex.search] returns the union of the
    posting sets of the lowercased token and of its derived singular, the
    empty set when neither is indexed. So a page ingested with a token [u]
    is found by every query token whose lowercased form or derived singular
    is [u]: a page containing engines is found by engine, and one containing
    engine by engines. *)
Theorem index_search_union (idx : gmap string (gset nat)) (token : string)
    (w : World) (url : string) :
  InvertedIndex.search idx token
  = postings idx (to_lower token) ∪ postings idx (to_singular (to_lower token))
  ∧ (idx !! to_lower token = None →
     idx !! to_singular (to_lower token) = None →
     InvertedIndex.search idx token = ∅)
  ∧ (∀ content u,
       u ∈ tokenize content →
       to_lower token = u ∨ to_singular (to_lower token) = u →
       length (pages (engine w))
         ∈ InvertedIndex.search (index (engine (ingest w (url, content)))) token)
  ∧ length (pages (engine w))
      ∈ InvertedIndex.search
          (index (engine (ingest w (url, "Search engines use algorithms."))))
          "engine"
  ∧ length (pages (engine w))
      ∈ InvertedIndex.search
          (index (engine (ingest w (url, "a search engine")))) "engines".
Proof.
  assert (∀ content u q,
            u ∈ tokenize content →
            to_lower q = u ∨ to_singular (to_lower q) = u →
            length (pages (engine w))
              ∈ InvertedIndex.search (index (engine (ingest w (url, content)))) q)
    as Hfound.
  { intros content u q Hu Hq. rewrite ingest_eq. simpl.
    by apply (add_page_found _ (MkWebPage _ _ _) q u). }
  split; [apply search_postings|]. split; [|split; [by eauto|split]].
  - intros H1 H2. rewrite search_postings. unfold postings. by rewrite H1, H2.
  - apply (Hfound _ "engine"); [|by left]. vm_compute.
    by apply (list_elem_of_lookup_2 _ 2).
  - apply (Hfound _ "engine"); [|by right]. vm_compute.
    by apply (list_elem_of_lookup_2 _ 1).
Qed.

(** C5, as stated, fails: the rule turns cookies into cooky, so a page
    ingested with cookies is not found by cookie, nor one with cookie by
    cookies, neither by the index nor by a search. *)
Lemma cookies_and_cookie_do_not_match :
  to_singular "cookies" = "cooky"
  ∧ InvertedIndex.search (index (engine (ingest new_world ("u", "cookies"))))
      "cookie" = ∅
  ∧ InvertedIndex.search (index (engine (ingest new_world ("u", "cookie"))))
      "cookies" = ∅
  ∧ snd <$> SearchEngine.search ascending (engine (ingest new_world ("u", "cookies")))
              "cookie" = Some []
  ∧ snd <$> SearchEngine.search ascending (engine (ingest new_world ("u", "cookie")))
              "cookies" = Some [].
Proof. by vm_compute. Qed.

(** ** Search *)

Section NoMatch.

Variable o : SetOrder.

Lemma set_iter_elem (token : string) (s : gset nat) (d : nat) :
  d ∈ set_iter o token s ↔ d ∈ s.
Proof. by rewrite set_iter_perm, elem_of_elements. Qed.

Lemma set_iter_nodup (token : string) (s : gset nat) : NoDup (set_iter o token s).
Proof. rewrite set_iter_perm. apply NoDup_elements. Qed.

Lemma set_iter_empty (token : string) : set_iter o token ∅ = [].
Proof.
  apply Permutation_nil_r. rewrite set_iter_perm. by rewrite elements_empty.
Qed.

Lemma scan_nothing (idx : gmap string (gset nat)) (st : Scan)
    (tokens : list string) :
  (∀ t, t ∈ tokens → InvertedIndex.search idx t = ∅) →
  for_each (SearchEngine.scan_token o idx) st tokens = Some st.
Proof.
  induction tokens as [|t tokens IH]; intros Hnone; simpl; [done|].
  unfold SearchEngine.scan_token at 1.
  rewrite (Hnone t) by left. rewrite set_iter_empty. simpl.
  apply IH. intros t' Ht'. apply Hnone. by right.
Qed.

End NoMatch.

(** C4. A query none of whose tokens matches a page gives the empty ranked
    sequence, and no fault, and leaves the engine as it was, whatever the
    order of sets; nothing is asked of the exact matches, so a page that
    contains the query as a substring stays out. A query made of stopwords
    has no token at all. *)
Theorem search_no_match (o : SetOrder) (e : SearchEngine) (q : string) :
  (∀ t, t ∈ tokenize q → InvertedIndex.search (index e) t = ∅) →
  SearchEngine.search o e q = Some (e, []).
Proof.
  intros Hnone. unfold SearchEngine.search.
  rewrite (scan_nothing o _ _ _ Hnone). simpl. by destruct e.
Qed.

Lemma search_no_match_witness :
  tokenize "the a in" = []
  ∧ SearchEngine.search ascending (engine main_world) "is an"
    = Some (engine main_world, [])
  ∧ SearchEngine.exact_matches (pages (engine main_world)) "is an" = [0]
  ∧ SearchEngine.search ascending (engine main_world) "zebras"
    = Some (engine main_world, []).
Proof.
  split; [by vm_compute|]. split; [|split; [by vm_compute|]].
  - apply (search_no_match ascending (engine main_world) "is an").
    intros t Ht. vm_compute in Ht. by apply elem_of_nil in Ht.
  - apply (search_no_match ascending (engine main_world) "zebras").
    intros t Ht. vm_compute in Ht.
    apply elem_of_cons in Ht as [->|Ht]; [by vm_compute|].
    apply list_elem_of_singleton in Ht as ->. by vm_compute.
Defined.

(** C2, as the code has it. On the four pages of the main section the query
    algorithm ranks exactly pages 1 and 2, the two whose content contains
    algorithms; each has one match and frequency sum 1, the count its
    frequency table stores for algorithm, because [tokenize] emitted the
    derived singular next to algorithms; the search changes nothing. *)
Theorem main_search_algorithm :
  SearchEngine.search ascending (engine main_world) "algorithm"
  = Some (engine main_world, [MkRanked 1 1 1 true; MkRanked 2 1 1 true])
  ∧ (λ page, str_in "algorithms" (content page)) <$> pages (engine main_world)
    = [false; true; true; false]
  ∧ (λ page, wordFrequency page !! "algorithm") <$> pages (engine main_world)
    = [None; Some 1; Some 1; None]
  ∧ tokenize "Another example page with algorithms and data."
    = ["another"; "example"; "page"; "algorithms"; "algorithm"; "data"].
Proof. by vm_compute. Qed.

(** C2, as stated, fails: no run of the query algorithm on the main pages
    gives the two pages a frequency sum of 0. *)
Lemma main_search_algorithm_frequency_not_zero :
  ¬ ∃ e' ranked,
      SearchEngine.search ascending (engine main_world) "algorithm" = Some (e', ranked)
      ∧ pageId <$> ranked ≡ₚ [1; 2]
      ∧ Forall (λ r, frequencySum r = 0) ranked.
Proof.
  intros (e' & ranked & Hrun & _ & Hzero).
  vm_compute in Hrun. injection Hrun as _ <-.
  apply Forall_cons in Hzero as [Hzero _]. discriminate Hzero.
Qed.

(** C1 at the failing input. On the main pages the query pages matches
    pages 0 and 1 through the singular page; reading their count of pages
    stores the key pages with count 0 in both frequency tables, which did not
    hold it, so the engine after the search is not the engine before. *)
Theorem search_writes_frequency_table :
  ∃ e' ranked,
    SearchEngine.search ascending (engine main_world) "pages" = Some (e', ranked)
    ∧ ranked = [MkRanked 0 2 1 false; MkRanked 1 2 1 false]
    ∧ (λ page, wordFrequency page !! "pages") <$> pages (engine main_world)
      = [None; None; None; None]
    ∧ (λ page, wordFrequency page !! "pages") <$> pages e'
      = [Some 0; Some 0; None; None]
    ∧ e' ≠ engine main_world.
Proof.
  eexists _, _. split; [by vm_compute|]. split; [done|].
  split; [by vm_compute|]. split; [by vm_compute|].
  intros Heq.
  apply (f_equal (λ e, (λ page, wordFrequency page !! "pages") <$> pages e !! 0))
    in Heq.
  vm_compute in Heq. discriminate Heq.
Qed.

(** C6 at the failing input. After the main pages are ingested and pages is
    searched for, the frequency table of page 0 holds the token pages, which
    the trie does not know and under which the index has no page. *)
Theorem query_breaks_frequency_agreement :
  ∃ w' page,
    query ascending main_world "pages" = Some w'
    ∧ pages (engine w') !! 0 = Some page
    ∧ wordFrequency page !! "pages" = Some 0
    ∧ Trie.search (trie w') "pages" = false
    ∧ postings (index (engine w')) "pages" = ∅.
Proof. eexists _, _. by vm_compute. Qed.

(** ** What ingestion stores of a page *)

Section CountFacts.

Implicit Types (x k : string) (l tokens : list string) (freq : gmap string nat).

Lemma occurrences_cons x y l :
  occurrences x (y :: l) = (if decide (y = x) then 1 else 0) + occurrences x l.
Proof. unfold occurrences. rewrite filter_cons. by case_decide. Qed.

Lemma occurrences_app x l1 l2 :
  occurrences x (l1 ++ l2) = occurrences x l1 + occurrences x l2.
Proof. unfold occurrences. by rewrite filter_app, length_app. Qed.

Lemma occurrences_zero x l : occurrences x l = 0 ↔ x ∉ l.
Proof.
  induction l as [|y l IH]; [split; [intros _; apply not_elem_of_nil|done]|].
  rewrite occurrences_cons, not_elem_of_cons. case_decide; [|naive_solver lia].
  split; [lia|]. intros [? _]. congruence.
Qed.

Lemma token_forms_in_tokenize content word x :
  word ∈ split (to_lower (remove_punctuation content)) →
  x ∈ token_forms word → x ∈ tokenize content.
Proof.
  intros Hword Hx. unfold tokenize. apply list_elem_of_In, in_flat_map.
  exists word. by rewrite <- !list_elem_of_In.
Qed.

(** Every kept word is a token, and so is its derived singular. *)
Lemma content_word_tokens content x :
  x ∈ content_words content →
  x ∈ tokenize content ∧ to_singular x ∈ tokenize content.
Proof.
  unfold content_words. rewrite list_elem_of_filter. intros [Hstop Hx].
  split; eapply token_forms_in_tokenize; try done; unfold token_forms;
    rewrite Hstop; simpl; destruct (String.eqb (to_singular x) x) eqn:Heq.
  - by left.
  - by left.
  - apply String.eqb_eq in Heq. rewrite Heq. by left.
  - right. by left.
Qed.

(** A token is counted once for every kept word equal to it and once for
    every kept word that it is the derived singular of. *)
Lemma tokenize_occurrences content k :
  occurrences k (tokenize content)
  = occurrences k (content_words content) + reduced_to k (content_words content).
Proof.
  unfold tokenize, content_words, reduced_to.
  induction (split (to_lower (remove_punctuation content))) as [|word l IH];
    [done|].
  simpl. rewrite occurrences_app, IH, filter_cons. unfold token_forms.
  destruct (in_stopWords word) eqn:Hstop; simpl.
  { done. }
  rewrite occurrences_cons, filter_cons.
  destruct (String.eqb (to_singular word) word) eqn:Hsing.
  - apply String.eqb_eq in Hsing.
    rewrite occurrences_cons. unfold occurrences at 1. simpl.
    rewrite (decide_False (P := to_singular word = k ∧ word ≠ k)); [lia|].
    intros [? ?]. congruence.
  - apply String.eqb_neq in Hsing.
    rewrite !occurrences_cons. unfold occurrences at 1. simpl.
    destruct (decide (word = k)) as [->|Hne].
    + rewrite (decide_False (P := to_singular k = k)) by done.
      rewrite (decide_False (P := to_singular k = k ∧ k ≠ k)); [lia|].
      by intros [_ ?].
    + destruct (decide (to_singular word = k)) as [Heq|Hne'].
      * rewrite decide_True by done. simpl. lia.
      * rewrite (decide_False (P := to_singular word = k ∧ word ≠ k)); [lia|].
        by intros [? _].
Qed.

Lemma count_tokens_lookup tokens freq k :
  foldl count_token freq tokens !! k
  = if decide (occurrences k tokens = 0) then freq !! k
    else Some (default 0 (freq !! k) + occurrences k tokens).
Proof.
  revert freq. induction tokens as [|t tokens IH]; intros freq; [done|].
  simpl. rewrite IH, occurrences_cons. unfold count_token.
  rewrite lookup_insert.
  destruct (decide (t = k)) as [->|Hne]; simpl.
  - repeat case_decide; try lia; simpl; f_equal; lia.
  - repeat case_decide; try lia; done.
Qed.

Lemma page_of_lookup doc k :
  wordFrequency (page_of doc) !! k
  = if decide (k ∈ tokenize doc.2) then Some (occurrences k (tokenize doc.2))
    else None.
Proof.
  unfold page_of. simpl. rewrite count_tokens_lookup, lookup_empty.
  pose proof (occurrences_zero k (tokenize doc.2)).
  repeat case_decide; naive_solver.
Qed.

Lemma filter_length_mono (P Q : string → Prop) `{!∀ y, Decision (P y)}
    `{!∀ y, Decision (Q y)} l :
  (∀ y, P y → Q y) → length (filter P l) ≤ length (filter Q l).
Proof.
  intros HPQ. induction l as [|y l IH]; [done|].
  rewrite !filter_cons. destruct (decide (P y)) as [HP|HP].
  - rewrite decide_True by auto. simpl. lia.
  - case_decide; simpl; lia.
Qed.

End CountFacts.

Section IngestAll.

Implicit Types (w : World) (docs : list (string * string)) (t : string).

Lemma pages_ingest_all w docs :
  pages (engine (foldl ingest w docs)) = pages (engine w) ++ (page_of <$> docs).
Proof.
  revert w. induction docs as [|doc docs IH]; intros w; simpl.
  - by rewrite app_nil_r.
  - rewrite IH, ingest_eq. simpl. by rewrite <- app_assoc.
Qed.

Lemma trie_ingest_all w docs t :
  Trie.search (trie (foldl ingest w docs)) t = true ↔
    Trie.search (trie w) t = true ∨ ∃ doc, doc ∈ docs ∧ t ∈ tokenize doc.2.
Proof.
  revert w. induction docs as [|doc docs IH]; intros w; simpl.
  - split; [by left|]. intros [?|(? & ?%elem_of_nil & _)]; done.
  - rewrite IH, ingest_eq. simpl. rewrite search_foldl_insert.
    rewrite orb_true_iff, bool_decide_eq_true. split.
    + intros [[?|?]|(doc' & ? & ?)]; [right|by left|right].
      * exists doc. split; [by left|done].
      * exists doc'. split; [by right|done].
    + intros [?|(doc' & [->|?]%elem_of_cons & ?)]; [left; by right|left; by left|].
      right. by exists doc'.
Qed.

Lemma postings_ingest_all w docs t (d : nat) :
  d ∈ postings (index (engine (foldl ingest w docs))) t ↔
    d ∈ postings (index (engine w)) t
    ∨ ∃ i doc, docs !! i = Some doc
               ∧ d = length (pages (engine w)) + i
               ∧ t ∈ tokenize doc.2.
Proof.
  revert w. induction docs as [|doc docs IH]; intros w; simpl.
  - split; [by left|]. by intros [?|(? & ? & ? & _)].
  - rewrite IH, ingest_eq. simpl. rewrite postings_add_page, !length_app. simpl.
    replace (length (pages (engine w)) + 1 - 1) with (length (pages (engine w)))
      by lia.
    rewrite elem_of_union. split.
    + intros [[?|Hnew]|(i & doc' & ? & -> & ?)]; [by left| |].
      * right. exists 0, doc. case_bool_decide; [|by apply elem_of_empty in Hnew].
        apply elem_of_singleton in Hnew. split; [done|]. split; [lia|done].
      * right. exists (S i), doc'. split; [done|]. split; [lia|done].
    + intros [?|(i & doc' & Hi & -> & Ht)]; [left; by left|].
      destruct i as [|i]; simpl in Hi.
      * injection Hi as ->. left. right.
        rewrite bool_decide_eq_true_2 by done. apply elem_of_singleton. lia.
      * right. exists i, doc'. split; [done|]. split; [lia|done].
Qed.

End IngestAll.

(** C9, as the code has it. For every ingested document and every word [x]
    that [tokenize] keeps of it whose derived singular [k] differs from [x]:
    [k] is a token of the document; the document's frequency table stores
    under [k] the number of kept words that reduce to [k] (the occurrences of
    [x] and of any other word with that singular) plus the number of kept
    words equal to [k]; the trie knows [k]; and the index lists the document
    under [k]. *)
Theorem singular_forms_ingested (docs : list (string * string)) (i : nat)
    (doc : string * string) (x : string) :
  docs !! i = Some doc →
  x ∈ content_words doc.2 →
  to_singular x ≠ x →
  let w := foldl ingest new_world docs in
  let k := to_singular x in
  k ∈ tokenize doc.2
  ∧ (∃ page, pages (engine w) !! i = Some page
             ∧ content page = doc.2
             ∧ wordFrequency page !! k
               = Some (reduced_to k (content_words doc.2)
                       + occurrences k (content_words doc.2))
             ∧ occurrences x (content_words doc.2)
               ≤ reduced_to k (content_words doc.2))
  ∧ Trie.search (trie w) k = true
  ∧ i ∈ postings (index (engine w)) k.
Proof.
  intros Hdoc Hx Hsing w k.
  destruct (content_word_tokens doc.2 x Hx) as [_ Hk]. fold k in Hk.
  split; [done|]. split; [|split].
  - exists (page_of doc). unfold w. rewrite pages_ingest_all.
    change (pages (engine new_world)) with (@nil WebPage).
    rewrite app_nil_l, list_lookup_fmap, Hdoc.
    split; [done|]. split; [done|]. split.
    + rewrite page_of_lookup, decide_True by done.
      rewrite tokenize_occurrences. f_equal. lia.
    + apply filter_length_mono. intros y ->. by split.
  - apply trie_ingest_all. right. exists doc. split; [|done].
    by eapply list_elem_of_lookup_2.
  - apply postings_ingest_all. right. by exists i, doc.
Qed.

Lemma singular_forms_ingested_witness :
  "algorithm" ∈ tokenize "Another example page with algorithms and data."
  ∧ (∃ page, pages (engine main_world) !! 1 = Some page
             ∧ content page = "Another example page with algorithms and data."
             ∧ wordFrequency page !! "algorithm" = Some 1
             ∧ 1 ≤ 1)
  ∧ Trie.search (trie main_world) "algorithm" = true
  ∧ 1 ∈ postings (index (engine main_world)) "algorithm".
Proof.
  apply (singular_forms_ingested main_pages 1
           ("https://example2.com", "Another example page with algorithms and data.")
           "algorithms").
  - reflexivity.
  - vm_compute. by apply (list_elem_of_lookup_2 _ 3).
  - vm_compute. discriminate.
Defined.

(** C9, as stated, fails where two kept words share a derived singular, and
    where the singular is a stopword: of the content ponies ponys the table
    stores pony twice, though ponies occurs once and pony never; of the
    content as a rule it stores a once, for the word as, and not the a that
    the content holds verbatim. *)
Lemma singular_count_is_not_one_plural :
  to_singular "ponies" = "pony"
  ∧ content_words "ponies ponys" = ["ponies"; "ponys"]
  ∧ wordFrequency (page_of ("u", "ponies ponys")) !! "pony" = Some 2
  ∧ occurrences "ponies" (content_words "ponies ponys")
    + occurrences "pony" (content_words "ponies ponys") = 1
  ∧ to_singular "as" = "a"
  ∧ split "as a rule" = ["as"; "a"; "rule"]
  ∧ wordFrequency (page_of ("u", "as a rule")) !! "a" = Some 1
  ∧ occurrences "as" (split "as a rule") + occurrences "a" (split "as a rule") = 2
  ∧ pages (engine (ingest new_world ("u", "ponies ponys")))
    = [page_of ("u", "ponies ponys")].
Proof. by vm_compute. Qed.

(** ** Ranking *)

Section SortFacts.

Context {A : Type} (key : A → Z * Z * Z).

Implicit Types (x y : A) (l : list A) (k : Z * Z * Z).

Lemma key_lt_spec (a b : Z * Z * Z) : key_lt a b = true ↔ key_below a b.
Proof.
  destruct a as [[a1 a2] a3], b as [[b1 b2] b3]. unfold key_lt, key_below. simpl.
  rewrite !orb_true_iff, !andb_true_iff, !orb_true_iff, !andb_true_iff.
  rewrite !Z.ltb_lt, !Z.eqb_eq. done.
Qed.

Lemma key_lt_false (a b : Z * Z * Z) : key_lt a b = false ↔ ¬ key_below a b.
Proof. rewrite <- key_lt_spec. by destruct (key_lt a b). Qed.

Lemma in_order_trans x y z :
  in_order key x y → in_order key y z → in_order key x z.
Proof.
  unfold in_order. rewrite !key_lt_false. unfold key_below.
  destruct (key x) as [[? ?] ?], (key y) as [[? ?] ?], (key z) as [[? ?] ?].
  simpl. lia.
Qed.

Lemma key_lt_in_order x y : key_lt (key x) (key y) = true → in_order key x y.
Proof.
  unfold in_order. rewrite key_lt_false, key_lt_spec. unfold key_below.
  destruct (key x) as [[? ?] ?], (key y) as [[? ?] ?]. simpl. lia.
Qed.

Lemma key_lt_neq x y : key_lt (key x) (key y) = true → key x ≠ key y.
Proof.
  rewrite key_lt_spec. unfold key_below. intros Hlt Heq. rewrite Heq in Hlt. lia.
Qed.

Lemma sorted_insert_perm x l : sorted_insert key x l ≡ₚ x :: l.
Proof.
  induction l as [|y l IH]; simpl; [done|].
  destruct (key_lt (key y) (key x)); [|done].
  rewrite IH. apply Permutation_swap.
Qed.

Lemma sorted_perm l : sorted key l ≡ₚ l.
Proof.
  induction l as [|x l IH]; simpl; [done|].
  by rewrite sorted_insert_perm, IH.
Qed.

Lemma sorted_insert_in_order x l :
  StronglySorted (in_order key) l →
  StronglySorted (in_order key) (sorted_insert key x l).
Proof.
  induction 1 as [|y l Hl IH Hy]; simpl.
  - repeat constructor.
  - destruct (key_lt (key y) (key x)) eqn:Hlt.
    + constructor; [done|]. rewrite sorted_insert_perm.
      constructor; [by apply key_lt_in_order|done].
    + constructor; [by constructor|]. constructor; [done|].
      eapply Forall_impl; [done|]. intros z Hz. by eapply in_order_trans.
Qed.

Lemma sorted_in_order l : StronglySorted (in_order key) (sorted key l).
Proof.
  induction l as [|x l IH]; simpl; [constructor|].
  by apply sorted_insert_in_order.
Qed.

(** The sort is stable: the items of one key keep their order. *)
Lemma sorted_insert_stable k x l :
  filter (λ y, key y = k) (sorted_insert key x l) = filter (λ y, key y = k) (x :: l).
Proof.
  induction l as [|y l IH]; simpl; [done|].
  destruct (key_lt (key y) (key x)) eqn:Hlt; [|done].
  apply key_lt_neq in Hlt.
  rewrite (filter_cons _ y), IH, !filter_cons.
  repeat case_decide; congruence.
Qed.

Lemma sorted_stable k l :
  filter (λ y, key y = k) (sorted key l) = filter (λ y, key y = k) l.
Proof.
  induction l as [|x l IH]; simpl; [done|].
  by rewrite sorted_insert_stable, !filter_cons, IH.
Qed.

End SortFacts.

Lemma sorted_fmap {A B : Type} (f : A → B) (key : B → Z * Z * Z) (l : list A) :
  f <$> sorted (key ∘ f) l = sorted key (f <$> l).
Proof.
  unfold sorted. induction l as [|x l IH]; csimpl; [done|]. rewrite <- IH.
  generalize (foldr (sorted_insert (key ∘ f)) [] l). intros l'.
  induction l' as [|y l' IH']; csimpl; [done|].
  destruct (key_lt (key (f y)) (key (f x))); csimpl; [|done]. by rewrite IH'.
Qed.

Section CounterFacts.

Implicit Types (d k n : nat) (l ks : list nat) (counts : list (nat * nat)).

Lemma first_occurrences_snoc l d :
  first_occurrences (l ++ [d])
  = if decide (d ∈ first_occurrences l) then first_occurrences l
    else first_occurrences l ++ [d].
Proof. unfold first_occurrences. by rewrite foldl_app. Qed.

Lemma first_occurrences_elem l d : d ∈ first_occurrences l ↔ d ∈ l.
Proof.
  induction l as [|x l IH] using rev_ind; [done|].
  rewrite first_occurrences_snoc, elem_of_app, list_elem_of_singleton.
  case_decide as Hx.
  - rewrite IH. split; [by left|]. intros [? | ->]; [done|]. by apply IH.
  - by rewrite elem_of_app, list_elem_of_singleton, IH.
Qed.

Lemma first_occurrences_nodup l : NoDup (first_occurrences l).
Proof.
  induction l as [|x l IH] using rev_ind; [constructor|].
  rewrite first_occurrences_snoc. case_decide as Hx; [done|].
  apply NoDup_app. split; [done|]. split; [|apply NoDup_singleton].
  intros y Hy ->%list_elem_of_singleton. done.
Qed.

Lemma times_snoc d l x :
  times d (l ++ [x]) = times d l + (if decide (x = d) then 1 else 0).
Proof.
  unfold times. rewrite filter_app, length_app, filter_cons.
  by case_decide.
Qed.

Lemma times_zero d l : d ∉ l → times d l = 0.
Proof.
  unfold times. induction l as [|x l IH]; [done|].
  rewrite not_elem_of_cons, filter_cons. intros [Hne Hd].
  rewrite decide_False by done. by apply IH.
Qed.

Lemma times_pos d l : d ∈ l → 0 < times d l.
Proof.
  unfold times. induction l as [|x l IH]; [by intros ?%elem_of_nil|].
  rewrite elem_of_cons, filter_cons. intros [->|Hd].
  - rewrite decide_True by done. simpl. lia.
  - case_decide; simpl; [lia|by apply IH].
Qed.

(** [d[k] += 1] on a counter that holds [c] of each of its keys [ks]. *)
Lemma bump_counts k ks (c c' : nat → nat) :
  NoDup ks →
  (∀ d, d ≠ k → c' d = c d) →
  c' k = c k + 1 →
  (k ∉ ks → c k = 0) →
  bump k 1 ((λ d, (d, c d)) <$> ks)
  = (λ d, (d, c' d)) <$> (if decide (k ∈ ks) then ks else ks ++ [k]).
Proof.
  intros Hnd Hother Hk Hnew. induction Hnd as [|a ks Ha Hnd IH]; csimpl.
  - rewrite Hk, Hnew; [done|]. apply not_elem_of_nil.
  - destruct (Nat.eqb_spec a k) as [->|Hne].
    + rewrite decide_True by left. csimpl. rewrite Hk. f_equal.
      apply Forall_fmap_ext, Forall_forall. intros d Hd.
      rewrite Hother; [done|]. by intros ->.
    + rewrite IH; [|intros Hin; apply Hnew; by intros [?|?]%elem_of_cons].
      destruct (decide (k ∈ ks)) as [Hin|Hin].
      * rewrite decide_True by (by right). csimpl. by rewrite Hother.
      * rewrite decide_False by (by intros [?|?]%elem_of_cons).
        csimpl. by rewrite Hother.
Qed.

(** The counter that the matching loop builds over the ids it visits. *)
Lemma foldl_bump l :
  foldl (λ counts d, bump d 1 counts) [] l
  = (λ d, (d, times d l)) <$> first_occurrences l.
Proof.
  induction l as [|x l IH] using rev_ind; [done|].
  rewrite foldl_app. simpl. rewrite IH, first_occurrences_snoc.
  apply bump_counts.
  - apply first_occurrences_nodup.
  - intros d Hd. rewrite times_snoc, decide_False by done. lia.
  - rewrite times_snoc, decide_True by done. done.
  - rewrite first_occurrences_elem. apply times_zero.
Qed.

End CounterFacts.

Section ScanFacts.

Variable o : SetOrder.

Implicit Types (st : Scan) (ps : list WebPage) (hs : list (string * nat))
  (idx : gmap string (gset nat)) (d : nat) (token : string).

Lemma for_each_app {S A : Type} (body : S → A → option S) (s : S) (l1 l2 : list A) :
  for_each body s (l1 ++ l2) = for_each body s l1 ≫= λ s', for_each body s' l2.
Proof.
  revert s. induction l1 as [|x l1 IH]; intros s; simpl; [done|].
  destruct (body s x); simpl; [apply IH|done].
Qed.

Lemma for_each_fmap {S A B : Type} (body : S → B → option S) (f : A → B) (s : S)
    (l : list A) :
  for_each body s (f <$> l) = for_each (λ s x, body s (f x)) s l.
Proof.
  revert s. induction l as [|x l IH]; intros s; csimpl; [done|].
  destruct (body s (f x)); [apply IH|done].
Qed.

(** The two nested loops are one loop over [hits]. *)
Lemma scan_as_hits idx st (tokens : list string) :
  for_each (SearchEngine.scan_token o idx) st tokens
  = for_each (λ st h, SearchEngine.visit h.1 st h.2) st (hits o idx tokens).
Proof.
  unfold hits. revert st. induction tokens as [|token tokens IH]; intros st; [done|].
  cbn [for_each flat_map]. rewrite for_each_app, for_each_fmap.
  unfold SearchEngine.scan_token at 1. simpl.
  destruct (for_each _ st _); simpl; [apply IH|done].
Qed.

Lemma same_counts_refl p : same_counts p p.
Proof. by split; [|split; [|split]]. Qed.

Lemma same_counts_trans p1 p2 p3 :
  same_counts p1 p2 → same_counts p2 p3 → same_counts p1 p3.
Proof.
  intros (? & ? & ? & Hc1) (? & ? & ? & Hc2).
  split; [congruence|]. split; [congruence|]. split; [by etrans|].
  intros token. by rewrite Hc2.
Qed.

Lemma read_count_spec page token :
  (read_count page token).1 = stored_count page token
  ∧ same_counts page (read_count page token).2.
Proof.
  unfold read_count, stored_count.
  destruct (wordFrequency page !! token) as [n|] eqn:Hn; simpl.
  - split; [done|]. apply same_counts_refl.
  - split; [done|]. split; [done|]. split; [done|]. split; simpl.
    + by apply insert_subseteq.
    + intros token'. unfold stored_count. simpl. rewrite lookup_insert.
      case_decide; [subst; by rewrite Hn|done].
Qed.

Lemma same_counts_insert ps ps' d p p' :
  Forall2 same_counts ps ps' →
  ps !! d = Some p → same_counts p p' →
  Forall2 same_counts ps (<[d := p']> ps').
Proof.
  intros Hall Hp Hsame.
  rewrite <- (list_insert_id ps d p) by done.
  by apply Forall2_insert.
Qed.

(** The matching loop returns when the ids it visits are ids of pages; it
    leaves every page with the counts it had, counts the visits of each id in
    visiting order, and sums the stored counts that it read. *)
Lemma scan_hits_spec ps hs : ∀ st,
  Forall2 same_counts ps (scan_pages st) →
  (∀ h, h ∈ hs → h.2 < length ps) →
  ∃ st',
    for_each (λ st h, SearchEngine.visit h.1 st h.2) st hs = Some st'
    ∧ Forall2 same_counts ps (scan_pages st')
    ∧ pageMatchCount st'
      = foldl (λ counts d, bump d 1 counts) (pageMatchCount st) hs.*2
    ∧ ∀ d, default 0 (pageFrequencySum st' !! d)
           = default 0 (pageFrequencySum st !! d) + sum_list (hit_count ps d <$> hs).
Proof.
  induction hs as [|[token id] hs IH]; intros st Hps Hids.
  { exists st. split; [done|]. split; [done|]. split; [done|].
    intros d. simpl. lia. }
  assert (id < length ps) as Hid by (apply (Hids (token, id)); left).
  destruct (lookup_lt_is_Some_2 ps id Hid) as [p Hp].
  destruct (Forall2_lookup_l _ _ _ _ _ Hps Hp) as (p' & Hp' & Hsame).
  destruct (read_count_spec p' token) as [Hn Hsame'].
  cbn [for_each]. unfold SearchEngine.visit at 1. simpl. rewrite Hp'. simpl.
  destruct (read_count p' token) as [n p''] eqn:Hread. simpl in Hn, Hsame'.
  destruct (IH (MkScan (<[id := p'']> (scan_pages st))
                       (bump id 1 (pageMatchCount st))
                       (<[id := default 0 (pageFrequencySum st !! id) + n]>
                          (pageFrequencySum st))))
    as (st' & -> & Hps' & Hcounts & Hsums).
  { simpl. eapply same_counts_insert; [done..|]. by eapply same_counts_trans. }
  { intros h Hh. apply Hids. by right. }
  exists st'. split; [done|]. split; [done|]. split; [done|].
  intros d. rewrite Hsums. csimpl. rewrite lookup_insert. unfold hit_count at 2.
  csimpl. destruct Hsame as (_ & _ & _ & Hstored).
  case_decide as Hd; csimpl.
  - subst d. rewrite Hp. csimpl. rewrite Hn, Hstored. lia.
  - lia.
Qed.

End ScanFacts.

Section RankFacts.

Variable o : SetOrder.

Implicit Types (idx : gmap string (gset nat)) (d : nat) (l : list nat)
  (tokens : list string) (r : Ranked).

Lemma times_app d l1 l2 : times d (l1 ++ l2) = times d l1 + times d l2.
Proof. unfold times. by rewrite filter_app, length_app. Qed.

Lemma times_nodup d l : NoDup l → times d l = if decide (d ∈ l) then 1 else 0.
Proof.
  intros Hnd. case_decide as Hd; [|by apply times_zero].
  induction Hnd as [|x l Hx Hnd IH]; [by apply elem_of_nil in Hd|].
  change (x :: l) with ([x] ++ l). rewrite times_app. unfold times at 1.
  rewrite filter_cons. apply elem_of_cons in Hd as [->|Hd].
  - rewrite decide_True by done. rewrite times_zero by done. done.
  - rewrite decide_False by (intros ->; done). rewrite IH by done. done.
Qed.

Lemma hits_ids idx token tokens :
  (hits o idx (token :: tokens)).*2
  = set_iter o token (InvertedIndex.search idx token) ++ (hits o idx tokens).*2.
Proof.
  unfold hits. cbn [flat_map]. rewrite fmap_app, <- list_fmap_compose.
  f_equal. apply list_fmap_id.
Qed.

Lemma hits_times idx tokens d :
  times d (hits o idx tokens).*2 = match_count idx tokens d.
Proof.
  unfold match_count. induction tokens as [|token tokens IH]; [done|].
  rewrite hits_ids, times_app, IH, filter_cons.
  rewrite times_nodup by apply set_iter_nodup.
  destruct (decide (d ∈ set_iter o token (InvertedIndex.search idx token))) as [Hd|Hd];
    rewrite set_iter_elem in Hd.
  - by rewrite decide_True.
  - by rewrite decide_False.
Qed.

Lemma hit_count_one (ps : list WebPage) d token l :
  NoDup l →
  sum_list (hit_count ps d <$> ((λ d', (token, d')) <$> l))
  = if decide (d ∈ l)
    then default 0 ((λ page, stored_count page token) <$> ps !! d)
    else 0.
Proof.
  induction 1 as [|x l Hx Hnd IH]; csimpl; [done|].
  rewrite IH. unfold hit_count at 1. simpl.
  destruct (decide (x = d)) as [->|Hne].
  - rewrite (decide_True (P := d ∈ d :: l)) by left.
    rewrite (decide_False (P := d ∈ l)) by done. lia.
  - destruct (decide (d ∈ l)) as [Hd|Hd].
    + rewrite decide_True by (by right). done.
    + rewrite decide_False; [done|]. intros [?|?]%elem_of_cons; congruence.
Qed.

Lemma sum_list_append (l1 l2 : list nat) :
  sum_list (l1 ++ l2) = sum_list l1 + sum_list l2.
Proof. induction l1 as [|x l1 IH]; simpl; lia. Qed.

Lemma hits_sum (e : SearchEngine) tokens d :
  sum_list (hit_count (pages e) d <$> hits o (index e) tokens)
  = frequency_sum e tokens d.
Proof.
  unfold frequency_sum, hits. induction tokens as [|token tokens IH]; [done|].
  cbn [flat_map]. rewrite fmap_app, sum_list_append, IH.
  rewrite hit_count_one by apply set_iter_nodup. csimpl. f_equal.
  destruct (decide (d ∈ set_iter o token (InvertedIndex.search (index e) token))) as [Hd|Hd];
    rewrite set_iter_elem in Hd.
  - by rewrite decide_True.
  - by rewrite decide_False.
Qed.

Lemma hits_elem idx tokens d :
  d ∈ (hits o idx tokens).*2 ↔ 0 < match_count idx tokens d.
Proof.
  rewrite <- hits_times. split; [apply times_pos|].
  intros Hpos. destruct (decide (d ∈ (hits o idx tokens).*2)) as [|Hd]; [done|].
  rewrite times_zero in Hpos by done. lia.
Qed.

Lemma hits_bounded (e : SearchEngine) tokens (h : string * nat) :
  index_bounded e → h ∈ hits o (index e) tokens → h.2 < length (pages e).
Proof.
  intros Hb. unfold hits. rewrite list_elem_of_In, in_flat_map.
  intros (token & _ & Hh). apply list_elem_of_In, list_elem_of_fmap in Hh.
  destruct Hh as (d & -> & Hd). simpl.
  rewrite set_iter_elem, search_postings, elem_of_union in Hd.
  destruct Hd; by eapply Hb.
Qed.

Lemma exact_matches_elem (ps : list WebPage) (q : string) d :
  d ∈ SearchEngine.exact_matches ps q ↔
    ∃ page, ps !! d = Some page
            ∧ SearchEngine.has_exact_match (content page) q = true.
Proof.
  unfold SearchEngine.exact_matches. rewrite list_elem_of_fmap. split.
  - intros ([i page] & -> & Hin). simpl.
    apply list_elem_of_In, filter_In in Hin as [Hin Hex].
    apply list_elem_of_In, list_elem_of_lookup in Hin as [j Hj].
    rewrite list_lookup_imap in Hj.
    destruct (ps !! j) as [page'|] eqn:Hps; simpl in Hj; [|done].
    injection Hj as <- <-. eauto.
  - intros (page & Hps & Hex). exists (d, page). split; [done|].
    apply list_elem_of_In, filter_In. split; [|done].
    apply list_elem_of_In, list_elem_of_lookup. exists d.
    by rewrite list_lookup_imap, Hps.
Qed.

Lemma exact_matches_same (e : SearchEngine) (ps' : list WebPage) (q : string) d :
  Forall2 same_counts (pages e) ps' →
  bool_decide (d ∈ SearchEngine.exact_matches ps' q) = is_exact e q d.
Proof.
  intros Hps. unfold is_exact.
  destruct (pages e !! d) as [page|] eqn:Hpage; simpl.
  - destruct (Forall2_lookup_l _ _ _ _ _ Hps Hpage) as (page' & Hpage' & Hsame).
    destruct Hsame as (_ & Hcontent & _).
    destruct (SearchEngine.has_exact_match (content page) q) eqn:Hex.
    + apply bool_decide_eq_true, exact_matches_elem. exists page'.
      by rewrite Hcontent.
    + apply bool_decide_eq_false. rewrite exact_matches_elem.
      intros (page'' & Hp'' & Hex'). rewrite Hpage' in Hp''.
      injection Hp'' as <-. congruence.
  - apply bool_decide_eq_false. rewrite exact_matches_elem.
    intros (page' & Hp' & _).
    apply (Forall2_lookup_r _ _ _ _ _ Hps) in Hp' as (? & ? & _). congruence.
Qed.

Lemma in_order_ranks r1 r2 : in_order ranked_key r1 r2 → ranks_no_lower r1 r2.
Proof.
  unfold in_order, ranks_no_lower, ranked_key.
  rewrite key_lt_false. unfold key_below. simpl.
  destruct (exactMatch r1), (exactMatch r2); simpl; lia.
Qed.

Lemma first_occurrences_app l1 l2 :
  first_occurrences (l1 ++ l2)
  = first_occurrences l1 ++ filter (λ d, d ∉ l1) (first_occurrences l2).
Proof.
  induction l2 as [|d l2 IH] using rev_ind.
  { by rewrite !app_nil_r. }
  rewrite app_assoc, !first_occurrences_snoc, IH.
  destruct (decide (d ∈ first_occurrences l2)) as [Hd2|Hd2];
    rewrite first_occurrences_elem in Hd2.
  - rewrite decide_True; [done|].
    rewrite elem_of_app, list_elem_of_filter, !first_occurrences_elem.
    destruct (decide (d ∈ l1)); [by left|by right].
  - rewrite filter_app. destruct (decide (d ∈ l1)) as [Hd1|Hd1].
    + rewrite decide_True
        by (apply elem_of_app; left; by apply first_occurrences_elem).
      rewrite filter_cons_False by naive_solver.
      by rewrite filter_nil, app_nil_r.
    + rewrite decide_False.
      2:{ rewrite elem_of_app, list_elem_of_filter, !first_occurrences_elem.
          naive_solver. }
      rewrite filter_cons_True by done. by rewrite filter_nil, app_assoc.
Qed.

Lemma filter_sublist {A : Type} (P : A → Prop) `{!∀ x, Decision (P x)}
    (l1 l2 : list A) :
  l1 `sublist_of` l2 → filter P l1 `sublist_of` filter P l2.
Proof.
  induction 1 as [|x l1 l2 _ IH|x l1 l2 _ IH]; [done| |];
    rewrite ?filter_cons; destruct (decide (P x)); try done.
  - by constructor.
  - by apply sublist_cons.
Qed.

(** A page first matched by an earlier token of the query is met before a
    page first matched by a later one, whatever the order of the sets. *)
Lemma first_match_order idx tokens (d1 d2 : nat) :
  first_match idx tokens d1 < first_match idx tokens d2 →
  d2 ∈ (hits o idx tokens).*2 →
  [d1; d2] `sublist_of` first_occurrences (hits o idx tokens).*2.
Proof.
  induction tokens as [|token tokens IH]; cbn [first_match]; [lia|].
  rewrite hits_ids, first_occurrences_app, elem_of_app, set_iter_elem.
  destruct (decide (d2 ∈ InvertedIndex.search idx token)) as [|Hd2]; [lia|].
  intros Hlt [?|Hin]; [done|].
  destruct (decide (d1 ∈ InvertedIndex.search idx token)) as [Hd1|Hd1].
  - apply (sublist_app [d1] _ [d2]); apply singleton_sublist_l.
    + by rewrite first_occurrences_elem, set_iter_elem.
    + by rewrite list_elem_of_filter, first_occurrences_elem, set_iter_elem.
  - apply sublist_inserts_l.
    replace [d1; d2]
      with (filter (λ d, d ∉ set_iter o token (InvertedIndex.search idx token))
                   [d1; d2]).
    + apply filter_sublist, IH; [lia|done].
    + rewrite !filter_cons_True by (by rewrite set_iter_elem). done.
Qed.

Lemma ties_with_key r1 r2 : ties_with r1 r2 ↔ ranked_key r2 = ranked_key r1.
Proof.
  unfold ties_with, ranked_key. split.
  - by intros (-> & -> & ->).
  - intros [= Hex Hm Hf]. split; [|lia].
    destruct (exactMatch r1), (exactMatch r2); done.
Qed.

Lemma StronglySorted_weaken {A : Type} (R R' : A → A → Prop) (l : list A) :
  (∀ x y, R x y → R' x y) → StronglySorted R l → StronglySorted R' l.
Proof.
  intros HR. induction 1 as [|x l Hl IH Hx]; constructor; [done|].
  eapply Forall_impl; [done|]. auto.
Qed.

End RankFacts.

Section SearchFacts.

Variable o : SetOrder.

Implicit Types (e : SearchEngine) (q : string) (w : World).

(** What [search] does on an engine whose index holds ids of pages only: it
    returns; it leaves the index and the number of pages as they were, and
    every page with its url, its content and the counts it stored; and its
    output is the stable sort of [candidates]. *)
Lemma search_spec e q :
  index_bounded e →
  ∃ ps', Forall2 same_counts (pages e) ps'
         ∧ SearchEngine.search o e q
           = Some (MkEngine ps' (index e), sorted ranked_key (candidates o e q)).
Proof.
  intros Hb. unfold SearchEngine.search. rewrite scan_as_hits.
  destruct (scan_hits_spec (pages e) (hits o (index e) (tokenize q))
              (MkScan (pages e) [] ∅))
    as (st' & -> & Hps & Hcounts & Hsums).
  { simpl. apply Forall_Forall2_diag, Forall_forall. intros. apply same_counts_refl. }
  { intros h. by apply hits_bounded. }
  exists (scan_pages st'). split; [done|]. simpl. do 2 f_equal.
  set (to_ranked := λ x : nat * nat,
         MkRanked x.1 x.2 (default 0 (pageFrequencySum st' !! x.1))
           (bool_decide (x.1 ∈ SearchEngine.exact_matches (scan_pages st') q))).
  change (SearchEngine.rank_key _ _) with (ranked_key ∘ to_ranked).
  rewrite sorted_fmap. f_equal.
  simpl in Hcounts. rewrite Hcounts, foldl_bump. unfold candidates.
  rewrite <- list_fmap_compose. apply Forall_fmap_ext, Forall_forall.
  intros d _. unfold to_ranked. simpl.
  rewrite hits_times, Hsums, hits_sum. simpl. rewrite lookup_empty. simpl.
  by rewrite (exact_matches_same e).
Qed.

Lemma index_bounded_ingest_all (docs : list (string * string)) :
  index_bounded (engine (foldl ingest new_world docs)).
Proof.
  intros token d. rewrite postings_ingest_all, pages_ingest_all.
  rewrite length_app, length_fmap. simpl.
  intros [Hd|(i & doc & Hi & -> & _)].
  - unfold postings in Hd. rewrite lookup_empty in Hd. by apply elem_of_empty in Hd.
  - by apply lookup_lt_Some in Hi.
Qed.

Lemma index_bounded_query w q w' :
  index_bounded (engine w) → query o w q = Some w' → index_bounded (engine w').
Proof.
  intros Hb. unfold query.
  destruct (search_spec (engine w) q Hb) as (ps' & Hps & ->). simpl.
  intros [= <-] token d Hd. simpl in *.
  rewrite <- (Forall2_length _ _ _ Hps). by eapply Hb.
Qed.

(** The frame of [search]: whatever it returns, the index and the number of
    pages are as before, and every page has its url, its content and the
    counts it stored; only keys with count 0 can be new. *)
Lemma search_frame e q e' ranked :
  index_bounded e →
  SearchEngine.search o e q = Some (e', ranked) →
  index e' = index e ∧ Forall2 same_counts (pages e) (pages e').
Proof.
  intros Hb. destruct (search_spec e q Hb) as (ps' & Hps & ->).
  by intros [= <- _].
Qed.

(** After ingestion alone the three structures agree: a token in a page's
    frequency table is known to the trie and lists the page in the index. *)
Lemma ingestion_agreement (docs : list (string * string)) (i : nat)
    (page : WebPage) (token : string) :
  let w := foldl ingest new_world docs in
  pages (engine w) !! i = Some page →
  is_Some (wordFrequency page !! token) →
  Trie.search (trie w) token = true ∧ i ∈ postings (index (engine w)) token.
Proof.
  intros w. unfold w. rewrite pages_ingest_all.
  change (pages (engine new_world)) with (@nil WebPage).
  rewrite app_nil_l, list_lookup_fmap.
  destruct (docs !! i) as [doc|] eqn:Hdoc; [|done].
  intros [= <-]. rewrite page_of_lookup. case_decide as Htok; [|by intros [? ?]].
  intros _. split.
  - apply trie_ingest_all. right. exists doc. split; [|done].
    by eapply list_elem_of_lookup_2.
  - apply postings_ingest_all. right. by exists i, doc.
Qed.

End SearchFacts.

(** C3, as the code has it. On every engine whose index holds ids of pages
    only, as ingestion builds it, for every query, and in whatever order the
    sets are iterated, [search] ranks exactly the pages with a positive match
    count, each once, with its match count, frequency sum and exact-match
    flag; the output is ordered by the exact match first, then by descending
    match count, then by descending frequency sum; and pages that tie on the
    three keys stand in the order in which the matching loop first met them,
    the order of [candidates]: token by token of the query, and within the
    result set of a token in the order in which that set is iterated. *)
Theorem search_ranking (o : SetOrder) (e : SearchEngine) (q : string) :
  index_bounded e →
  ∃ e' ranked,
    SearchEngine.search o e q = Some (e', ranked)
    ∧ ranked ≡ₚ candidates o e q
    ∧ NoDup (pageId <$> ranked)
    ∧ (∀ d, d ∈ pageId <$> ranked ↔ 0 < match_count (index e) (tokenize q) d)
    ∧ StronglySorted ranks_no_lower ranked
    ∧ (∀ r, filter (ties_with r) ranked = filter (ties_with r) (candidates o e q))
    ∧ ∀ r1 r2,
        r1 ∈ ranked → r2 ∈ ranked → ties_with r1 r2 →
        first_match (index e) (tokenize q) (pageId r1)
        < first_match (index e) (tokenize q) (pageId r2) →
        [r1; r2] `sublist_of` ranked.
Proof.
  intros Hb. destruct (search_spec o e q Hb) as (ps' & _ & ->).
  eexists _, _. split; [done|].
  pose proof (sorted_perm ranked_key (candidates o e q)) as Hperm.
  assert (pageId <$> candidates o e q
          = first_occurrences (hits o (index e) (tokenize q)).*2) as Hids.
  { unfold candidates. rewrite <- list_fmap_compose. apply list_fmap_id. }
  assert (∀ r, filter (ties_with r) (sorted ranked_key (candidates o e q))
               = filter (ties_with r) (candidates o e q)) as Hties.
  { intros r.
    rewrite !(list_filter_iff (ties_with r) (λ x, ranked_key x = ranked_key r))
      by apply ties_with_key.
    apply sorted_stable. }
  split; [done|]. split; [|split; [|split; [|split; [done|]]]].
  - rewrite Hperm, Hids. apply first_occurrences_nodup.
  - intros d. by rewrite Hperm, Hids, first_occurrences_elem, hits_elem.
  - eapply StronglySorted_weaken; [apply in_order_ranks|apply sorted_in_order].
  - intros r1 r2 Hr1 Hr2 Htie Hlt. rewrite Hperm in Hr1, Hr2.
    trans (filter (ties_with r1) (sorted ranked_key (candidates o e q)));
      [|apply sublist_filter].
    rewrite Hties.
    replace [r1; r2] with (filter (ties_with r1) [r1; r2]).
    2:{ rewrite !filter_cons_True; [done|done|]. by repeat split. }
    apply filter_sublist.
    set (entry := λ d, MkRanked d (match_count (index e) (tokenize q) d)
                         (frequency_sum e (tokenize q) d) (is_exact e q d)).
    assert (∀ r, r ∈ candidates o e q →
                 r = entry (pageId r)
                 ∧ pageId r ∈ (hits o (index e) (tokenize q)).*2) as Hentry.
    { intros r (d & -> & Hd)%list_elem_of_fmap.
      by rewrite first_occurrences_elem in Hd. }
    destruct (Hentry r1 Hr1) as [-> _]. destruct (Hentry r2 Hr2) as [-> Hin2].
    change [entry (pageId r1); entry (pageId r2)]
      with (entry <$> [pageId r1; pageId r2]).
    apply fmap_sublist. by apply first_match_order.
Qed.

Lemma search_ranking_witness :
  ∃ e' ranked,
    SearchEngine.search ascending (engine main_world) "example search engine"
    = Some (e', ranked)
    ∧ ranked ≡ₚ candidates ascending (engine main_world) "example search engine"
    ∧ NoDup (pageId <$> ranked)
    ∧ (∀ d, d ∈ pageId <$> ranked ↔
         0 < match_count (index (engine main_world))
               (tokenize "example search engine") d)
    ∧ StronglySorted ranks_no_lower ranked
    ∧ (∀ r, filter (ties_with r) ranked
            = filter (ties_with r)
                (candidates ascending (engine main_world) "example search engine"))
    ∧ ∀ r1 r2,
        r1 ∈ ranked → r2 ∈ ranked → ties_with r1 r2 →
        first_match (index (engine main_world))
          (tokenize "example search engine") (pageId r1)
        < first_match (index (engine main_world))
            (tokenize "example search engine") (pageId r2) →
        [r1; r2] `sublist_of` ranked.
Proof.
  apply (search_ranking ascending (engine main_world) "example search engine").
  apply (index_bounded_ingest_all main_pages).
Defined.

(** C3, as stated, fails: on the main pages the query example search engine
    matches pages 3 and 2 twice each, with frequency sum 2 and no exact
    match; page 3 was met first, under the token example, the first of the
    query, and page 2 under search, the second; so page 3 is ranked before
    page 2, the smaller id, and is so in whatever order sets are iterated. *)
Lemma tie_keeps_first_match_order :
  snd <$> SearchEngine.search ascending (engine main_world) "example search engine"
  = Some [MkRanked 0 3 3 false; MkRanked 3 2 2 false;
          MkRanked 2 2 2 false; MkRanked 1 1 1 false]
  ∧ (hits ascending (index (engine main_world))
       (tokenize "example search engine")).*2
    = [0; 1; 3; 0; 2; 3; 0; 2]
  ∧ first_match (index (engine main_world)) (tokenize "example search engine") 3
    = 0
  ∧ first_match (index (engine main_world)) (tokenize "example search engine") 2
    = 1.
Proof. by vm_compute. Qed.

(** * Further properties *)

(** ** The trie as a set of words *)

Section TrieWords.

Implicit Types (c k : ascii) (ch : list (ascii * TrieNode)) (node : TrieNode)
  (pfx suf x : string).


Lemma string_app_assoc (s1 s2 s3 : string) :
  (s1 +:+ s2) +:+ s3 = s1 +:+ (s2 +:+ s3).
Proof.
  induction s1; rewrite ?string_app_cons, ?string_app_nil_l; congruence.
Qed.




















(** *** The frames that [autocomplete] needs *)











End TrieWords.

(** X1. The trie is the set of the words inserted: after [insert w] it knows
    [w] and what it knew before, nothing else; an empty trie knows no word,
    not even the empty one; so a trie built by insertions knows a word
    exactly when that word was inserted. *)
Theorem trie_search_insert (t : Trie) (w w' : string) (words : list string) :
  (Trie.search (Trie.insert t w) w' = true ↔ w' = w ∨ Trie.search t w' = true)
  ∧ Trie.search new_trie w' = false
  ∧ (Trie.search (foldl Trie.insert new_trie words) w' = true ↔ w' ∈ words).
Proof.
  split; [|split].
  - rewrite search_insert, orb_true_iff, String.eqb_eq. naive_solver.
  - apply search_from_new_node.
  - rewrite search_foldl_insert, orb_true_iff, bool_decide_eq_true.
    change (Trie.search new_trie w') with (search_from w' new_node).
    rewrite search_from_new_node. naive_solver.
Qed.


(** ** Preprocessing *)

Section CharFacts.

Implicit Types (c : ascii).

Local Ltac by_cases c :=
  destruct c as [[] [] [] [] [] [] [] []]; vm_compute; try done.

Lemma lower_char_idem c : lower_char (lower_char c) = lower_char c.
Proof. by_cases c. Qed.

Lemma kept_lower_char c : kept_char (lower_char c) = kept_char c.
Proof. by_cases c. Qed.

Lemma kept_char_class c :
  kept_char c = true →
  is_token_char (lower_char c) || is_space (lower_char c) = true.
Proof. by_cases c. Qed.

Lemma token_char_facts c :
  is_token_char c = true →
  is_space c = false ∧ kept_char c = true ∧ lower_char c = c.
Proof. by_cases c. Qed.

End CharFacts.

Section TextFacts.

Implicit Types (c : ascii) (s w pre suf text cur : string) (P : ascii → bool).

Lemma str_forall_take P n s :
  str_forall P s = true → str_forall P (str_take n s) = true.
Proof.
  revert s. induction n as [|n IH]; intros [|c s]; simpl; try done.
  intros [Hc Hs]%andb_true_iff. rewrite Hc. by apply IH.
Qed.

Lemma str_forall_impl P Q s :
  (∀ c, P c = true → Q c = true) →
  str_forall P s = true → str_forall Q s = true.
Proof.
  intros HPQ. induction s as [|c s IH]; simpl; [done|].
  intros [Hc Hs]%andb_true_iff. by rewrite HPQ, IH.
Qed.

Lemma substring_take_drop (n m : nat) s :
  String.substring n m s = str_take m (str_drop n s).
Proof.
  revert n m. induction s as [|c s IH]; intros [|n] [|m]; simpl; try done.
  all: rewrite IH; by destruct s.
Qed.

Lemma drop_last_take (n : nat) w :
  drop_last n w = str_take (String.length w - n) w.
Proof. unfold drop_last. rewrite substring_take_drop. by destruct w. Qed.

Lemma str_take_all s : str_take (String.length s) s = s.
Proof. induction s; simpl; congruence. Qed.

(** [endswith] is what its name says. *)
Lemma endswith_iff w suf : endswith w suf = true ↔ ∃ pre, w = pre +:+ suf.
Proof.
  unfold endswith. rewrite andb_true_iff, Nat.leb_le, String.eqb_eq.
  rewrite substring_take_drop. split.
  - intros [Hlen Hsuf].
    exists (str_take (String.length w - String.length suf) w).
    rewrite <- Hsuf at 2.
    rewrite <- (str_take_drop (String.length w - String.length suf) w) at 1.
    f_equal.
    rewrite <- (str_take_all (str_drop _ w)) at 1.
    f_equal. rewrite str_drop_length. lia.
  - intros [pre ->]. rewrite string_length_app. split; [lia|].
    replace (String.length pre + String.length suf - String.length suf)
      with (String.length pre) by lia.
    rewrite str_drop_app. apply str_take_all.
Qed.

Lemma endswith_false w suf : endswith w suf = false ↔ ∀ pre, w ≠ pre +:+ suf.
Proof.
  destruct (endswith w suf) eqn:He.
  - apply endswith_iff in He as [pre ->]. split; [done|]. intros H. by destruct (H pre).
  - split; [|done]. intros _ pre ->.
    assert (endswith (pre +:+ suf) suf = true) by (apply endswith_iff; eauto).
    congruence.
Qed.

Lemma to_singular_cases w :
  (∃ pre, pre ≠ "" ∧ w = pre +:+ "ies" ∧ to_singular w = pre +:+ "y")
  ∨ (∃ pre, pre ≠ "" ∧ w = pre +:+ "s" ∧ to_singular w = pre)
  ∨ to_singular w = w.
Proof.
  unfold to_singular.
  destruct (endswith w "ies") eqn:Hies; simpl.
  - destruct (Nat.ltb_spec 3 (String.length w)) as [Hlen|Hlen].
    + left. apply endswith_iff in Hies as [pre ->]. exists pre.
      rewrite string_length_app in Hlen. simpl in Hlen.
      split; [intros ->; simpl in Hlen; lia|]. split; [done|].
      rewrite drop_last_take, string_length_app. simpl.
      replace (String.length pre + 3 - 3) with (String.length pre) by lia.
      by rewrite str_take_app.
    + destruct (endswith w "s") eqn:Hs; simpl; [|by right; right].
      destruct (Nat.ltb_spec 1 (String.length w)) as [Hlen'|Hlen'];
        [|by right; right].
      right. left. apply endswith_iff in Hs as [pre ->]. exists pre.
      rewrite string_length_app in Hlen'. simpl in Hlen'.
      split; [intros ->; simpl in Hlen'; lia|]. split; [done|].
      rewrite drop_last_take, string_length_app. simpl.
      replace (String.length pre + 1 - 1) with (String.length pre) by lia.
      by rewrite str_take_app.
  - destruct (endswith w "s") eqn:Hs; simpl; [|by right; right].
    destruct (Nat.ltb_spec 1 (String.length w)) as [Hlen'|Hlen'];
      [|by right; right].
    right. left. apply endswith_iff in Hs as [pre ->]. exists pre.
    rewrite string_length_app in Hlen'. simpl in Hlen'.
    split; [intros ->; simpl in Hlen'; lia|]. split; [done|].
    rewrite drop_last_take, string_length_app. simpl.
    replace (String.length pre + 1 - 1) with (String.length pre) by lia.
    by rewrite str_take_app.
Qed.

End TextFacts.

Section TokenFacts.

Implicit Types (c : ascii) (s w pre suf text cur t : string).

Lemma to_singular_normal w : normal_token w → normal_token (to_singular w).
Proof.
  intros [Hne Hall].
  destruct (to_singular_cases w) as [(pre & Hpre & -> & ->)|[(pre & Hpre & -> & ->)| ->]];
    [| |done].
  - rewrite str_forall_app, andb_true_iff in Hall. destruct Hall as [Hall _].
    split; [by destruct pre|]. by rewrite str_forall_app, Hall.
  - rewrite str_forall_app, andb_true_iff in Hall. by destruct Hall as [Hall _].
Qed.

Lemma cleaned_chars text :
  str_forall (λ c, is_token_char c || is_space c)
             (to_lower (remove_punctuation text)) = true.
Proof.
  induction text as [|c text IH]; simpl; [done|].
  destruct (kept_char c) eqn:Hc; simpl; [|done].
  by rewrite kept_char_class, IH.
Qed.

Lemma split_go_normal text : ∀ cur,
  str_forall is_token_char cur = true →
  str_forall (λ c, is_token_char c || is_space c) text = true →
  Forall normal_token (split_go cur text).
Proof.
  induction text as [|c text IH]; intros cur Hcur Htext; simpl.
  - destruct (String.eqb_spec cur ""); by repeat constructor.
  - simpl in Htext. apply andb_true_iff in Htext as [Hc Htext].
    destruct (is_space c) eqn:Hsp.
    + destruct (String.eqb_spec cur ""); [by apply IH|].
      constructor; [done|]. by apply IH.
    + rewrite orb_false_r in Hc. apply IH; [|done].
      rewrite str_forall_app, Hcur. simpl. by rewrite Hc.
Qed.

Lemma token_forms_normal w : normal_token w → Forall normal_token (token_forms w).
Proof.
  intros Hw. unfold token_forms. destruct (in_stopWords w); [constructor|].
  simpl. destruct (String.eqb (to_singular w) w).
  - constructor; [done|constructor].
  - constructor; [done|]. constructor; [by apply to_singular_normal|constructor].
Qed.

Lemma tokenize_normal text : Forall normal_token (tokenize text).
Proof.
  unfold tokenize.
  pose proof (split_go_normal _ "" eq_refl (cleaned_chars text)) as Hwords.
  fold (split (to_lower (remove_punctuation text))) in Hwords.
  induction Hwords as [|w ws Hw _ IH]; simpl; [constructor|].
  apply Forall_app. split; [by apply token_forms_normal|done].
Qed.

(** A normal token is text that preprocessing leaves alone. *)
Lemma normal_remove_punctuation s :
  str_forall is_token_char s = true → remove_punctuation s = s.
Proof.
  induction s as [|c s IH]; simpl; [done|].
  intros [Hc Hs]%andb_true_iff.
  destruct (token_char_facts c Hc) as (_ & -> & _). by rewrite IH.
Qed.

Lemma normal_to_lower s : str_forall is_token_char s = true → to_lower s = s.
Proof.
  induction s as [|c s IH]; simpl; [done|].
  intros [Hc Hs]%andb_true_iff.
  destruct (token_char_facts c Hc) as (_ & _ & ->). by rewrite IH.
Qed.

Lemma normal_split_go s : ∀ cur,
  str_forall is_token_char s = true →
  split_go cur s = if String.eqb (cur +:+ s) "" then [] else [cur +:+ s].
Proof.
  induction s as [|c s IH]; intros cur; simpl.
  - by rewrite string_app_nil_r.
  - intros [Hc Hs]%andb_true_iff.
    destruct (token_char_facts c Hc) as (-> & _ & _).
    rewrite IH by done. by rewrite string_app_assoc.
Qed.

Lemma tokenize_normal_token t : normal_token t → tokenize t = token_forms t.
Proof.
  intros [Hne Hall]. unfold tokenize, split.
  rewrite normal_remove_punctuation, normal_to_lower by done.
  rewrite normal_split_go by done. rewrite string_app_nil_l.
  destruct (String.eqb_spec t ""); [done|]. simpl. apply app_nil_r.
Qed.

Lemma to_lower_cleaned text :
  to_lower (remove_punctuation (to_lower text)) = to_lower (remove_punctuation text).
Proof.
  induction text as [|c text IH]; simpl; [done|].
  rewrite kept_lower_char. destruct (kept_char c); simpl; [|done].
  by rewrite lower_char_idem, IH.
Qed.

Lemma remove_punctuation_idem text :
  remove_punctuation (remove_punctuation text) = remove_punctuation text.
Proof.
  induction text as [|c text IH]; simpl; [done|].
  destruct (kept_char c) eqn:Hc; simpl; [|done]. by rewrite Hc, IH.
Qed.

End TokenFacts.

Lemma to_singular_ies (pre : string) :
  pre ≠ "" → to_singular (pre +:+ "ies") = pre +:+ "y".
Proof.
  intros Hpre. unfold to_singular.
  rewrite (proj2 (endswith_iff (pre +:+ "ies") "ies")) by eauto.
  rewrite drop_last_take, string_length_app. simpl.
  destruct (Nat.ltb_spec 3 (String.length pre + 3)) as [_|Hlen].
  - replace (String.length pre + 3 - 3) with (String.length pre) by lia.
    by rewrite str_take_app.
  - destruct pre; [done|]. simpl in Hlen. lia.
Qed.

(** X3. [to_singular] returns the empty string only for the empty string,
    never a longer word and never one more than two characters shorter; it
    leaves alone every word that does not end in s, and turns a non-empty
    stem followed by ies into the stem followed by y. *)
Theorem to_singular_bounds (w pre : string) :
  (to_singular w = "" ↔ w = "")
  ∧ String.length (to_singular w) ≤ String.length w
  ∧ String.length w ≤ String.length (to_singular w) + 2
  ∧ ((∀ stem, w ≠ stem +:+ "s") → to_singular w = w)
  ∧ (pre ≠ "" → to_singular (pre +:+ "ies") = pre +:+ "y").
Proof.
  assert (∀ s, s = "" ↔ String.length s = 0) as Hlen0.
  { intros s. split; [by intros ->|apply string_length_0]. }
  assert (∀ s, s ≠ "" → 0 < String.length s) as Hpos.
  { intros [|c s] ?; [done|]. simpl. lia. }
  split; [|split; [|split; [|split; [|apply to_singular_ies]]]];
    destruct (to_singular_cases w) as [(p & Hp%Hpos & -> & ->)|[(p & Hp%Hpos & -> & ->)| ->]];
    rewrite ?Hlen0, ?string_length_app; simpl; try lia; try done.
  - intros Hno. destruct (Hno (p +:+ "ie")). by rewrite string_app_assoc.
  - intros Hno. by destruct (Hno p).
Qed.

(** X4. Every token that [tokenize] emits, of whatever text, is not empty
    and consists of lowercase ASCII letters and digits only: no white space,
    no punctuation, no capital; a text without such characters has no token. *)
Theorem tokens_normalized (text : string) :
  Forall (λ t, t ≠ "" ∧ str_forall is_token_char t = true) (tokenize text)
  ∧ (str_forall (λ c, negb (is_token_char (lower_char c))) text = true →
     tokenize text = []).
Proof.
  split; [apply tokenize_normal|].
  intros Hnone.
  assert (split_go "" (to_lower (remove_punctuation text)) = []) as Hsplit.
  { induction text as [|c text IH]; simpl; [done|].
    simpl in Hnone. apply andb_true_iff in Hnone as [Hc Hnone].
    destruct (kept_char c) eqn:Hk; simpl; [|by apply IH].
    pose proof (kept_char_class c Hk) as Hclass.
    apply negb_true_iff in Hc. rewrite Hc in Hclass. simpl in Hclass.
    rewrite Hclass. by apply IH. }
  unfold tokenize, split. by rewrite Hsplit.
Qed.

(** X5. [tokenize] sees no punctuation: a text and the text without its
    punctuation have the same tokens; and a token is its own tokenization,
    followed by its derived singular when that differs, unless it is a
    stopword. *)
Theorem tokenize_normalizes (text : string) :
  tokenize (remove_punctuation text) = tokenize text
  ∧ Forall (λ t, tokenize t = token_forms t) (tokenize text).
Proof.
  split.
  - unfold tokenize. by rewrite remove_punctuation_idem.
  - eapply Forall_impl; [apply tokenize_normal|]. apply tokenize_normal_token.
Qed.

Section SubstringFacts.

Implicit Types (needle hay pre post : string).

Lemma prefix_cons (a b : ascii) needle hay :
  String.prefix (String a needle) (String b hay)
  = if ascii_dec a b then String.prefix needle hay else false.
Proof. reflexivity. Qed.

Lemma prefix_iff needle hay :
  String.prefix needle hay = true ↔ ∃ post, hay = needle +:+ post.
Proof.
  revert hay. induction needle as [|a needle IH]; intros hay.
  - destruct hay; (split; [intros _; by eexists|done]).
  - destruct hay as [|b hay]; [split; [done|by intros [? ?]]|].
    rewrite prefix_cons. destruct (ascii_dec a b) as [->|Hne].
    + rewrite IH. split; intros [post Hpost]; exists post.
      * by rewrite string_app_cons, <- Hpost.
      * rewrite string_app_cons in Hpost. by injection Hpost.
    + split; [done|]. intros [post Hpost]. rewrite string_app_cons in Hpost.
      injection Hpost as <- _. done.
Qed.

(** [str_in] decides whether the needle is a contiguous part of the hay. *)
Lemma str_in_iff needle hay :
  str_in needle hay = true ↔ ∃ pre post, hay = pre +:+ needle +:+ post.
Proof.
  induction hay as [|c hay IH].
  - change (str_in needle "") with (String.prefix needle "" || false).
    rewrite orb_true_iff, prefix_iff. split.
    + intros [[post ->]|?]; [|done]. by exists "", post.
    + intros (pre & post & Heq). left. destruct pre; [by exists post|done].
  - change (str_in needle (String c hay))
      with (String.prefix needle (String c hay) || str_in needle hay).
    rewrite orb_true_iff, prefix_iff, IH. split.
    + intros [[post ->]|(pre & post & ->)]; [by exists "", post|].
      by exists (String c pre), post.
    + intros ([|c' pre] & post & Heq).
      * left. by exists post.
      * right. rewrite string_app_cons in Heq. injection Heq as -> ->. eauto.
Qed.

End SubstringFacts.

(** X6. [has_exact_match] holds exactly when the normalized query is a
    contiguous part of the normalized content. So the empty query, and any
    query of punctuation only, matches every content; and a content matches
    itself. *)
Theorem has_exact_match_substring (content q : string) :
  (SearchEngine.has_exact_match content q = true ↔
     ∃ pre post,
       to_lower (remove_punctuation content)
       = pre +:+ to_lower (remove_punctuation q) +:+ post)
  ∧ (remove_punctuation q = "" → SearchEngine.has_exact_match content q = true)
  ∧ SearchEngine.has_exact_match content content = true.
Proof.
  unfold SearchEngine.has_exact_match. split; [apply str_in_iff|]. split.
  - intros ->. apply str_in_iff. by exists "", (to_lower (remove_punctuation content)).
  - apply str_in_iff. exists "", "". by rewrite string_app_nil_r.
Qed.

(** X7. A query of characters below U+0100, as every string of this model
    is, can be lowered beforehand: the lowercase query has the same tokens,
    matches the same contents exactly, and [search] gives it the same engine
    and the same ranked entries, on every engine. (Above U+0100 [str.lower]
    makes a k of the Kelvin sign, which [tokenize] would have dropped.) *)
Theorem search_ignores_case (o : SetOrder) (e : SearchEngine)
    (content q : string) :
  tokenize (to_lower q) = tokenize q
  ∧ SearchEngine.has_exact_match content (to_lower q)
    = SearchEngine.has_exact_match content q
  ∧ SearchEngine.search o e (to_lower q) = SearchEngine.search o e q.
Proof.
  split; [unfold tokenize; by rewrite to_lower_cleaned|].
  split; [unfold SearchEngine.has_exact_match; by rewrite to_lower_cleaned|].
  unfold SearchEngine.search.
  assert (∀ ps, SearchEngine.exact_matches ps (to_lower q)
                = SearchEngine.exact_matches ps q) as Hexact.
  { intros ps. unfold SearchEngine.exact_matches. f_equal.
    apply filter_ext. intros [i page]. unfold SearchEngine.has_exact_match.
    by rewrite to_lower_cleaned. }
  unfold tokenize. rewrite to_lower_cleaned.
  destruct (for_each _ _ _); simpl; [|done]. by rewrite Hexact.
Qed.

(** ** Ingestion, structure by structure *)

Section IngestMore.

Implicit Types (w : World) (docs : list (string * string)) (t k : string).


Lemma occurrences_pos k (l : list string) : k ∈ l → 0 < occurrences k l.
Proof.
  intros Hk. destruct (occurrences k l) eqn:Hocc; [|lia].
  by apply occurrences_zero in Hocc.
Qed.

Lemma add_page_is_Some (idx : gmap string (gset nat)) (pid : nat)
    (tokens : list string) t :
  is_Some (InvertedIndex.add_page idx pid tokens !! t)
  ↔ is_Some (idx !! t) ∨ t ∈ tokens.
Proof.
  unfold InvertedIndex.add_page. revert idx.
  induction tokens as [|token tokens IH]; intros idx; simpl.
  - split; [by left|]. by intros [?|?%elem_of_nil].
  - rewrite IH. unfold InvertedIndex.add_posting at 1.
    rewrite lookup_insert_is_Some, elem_of_cons.
    destruct (decide (token = t)) as [->|Hne]; naive_solver.
Qed.

Lemma add_page_nonempty (idx : gmap string (gset nat)) (pid : nat)
    (tokens : list string) :
  (∀ k s, idx !! k = Some s → s ≠ ∅) →
  ∀ k s, InvertedIndex.add_page idx pid tokens !! k = Some s → s ≠ ∅.
Proof.
  unfold InvertedIndex.add_page. revert idx.
  induction tokens as [|token tokens IH]; intros idx Hidx; simpl; [done|].
  apply IH. intros k s. unfold InvertedIndex.add_posting.
  rewrite lookup_insert. case_decide; [|by apply Hidx].
  intros [= <-]. set_solver.
Qed.

End IngestMore.

(** X8. [WebPage.__init__] keeps the url and the content, and builds a
    frequency table that holds exactly the tokens of the content, each with
    the number of its occurrences in the token list, never a count of 0; the
    trie it was given knows afterwards what it knew and these tokens. *)
Theorem webpage_init_table (u c : string) (t : Trie) (k : string) :
  let page := (WebPage_init u c t).1 in
  let t' := (WebPage_init u c t).2 in
  url page = u
  ∧ content page = c
  ∧ wordFrequency page !! k
    = (if decide (k ∈ tokenize c) then Some (occurrences k (tokenize c)) else None)
  ∧ wordFrequency page !! k ≠ Some 0
  ∧ (Trie.search t' k = true ↔ Trie.search t k = true ∨ k ∈ tokenize c).
Proof.
  rewrite WebPage_init_eq. simpl.
  pose proof (page_of_lookup (u, c) k) as Hk. unfold page_of in Hk. simpl in Hk.
  split; [done|]. split; [done|]. split; [done|]. split.
  - rewrite Hk. case_decide as Hin; [|done].
    apply occurrences_pos in Hin. intros [= Hz]. lia.
  - rewrite search_foldl_insert, orb_true_iff, bool_decide_eq_true. naive_solver.
Qed.

(** X9. [InvertedIndex.add_page] adds the page id to the posting set of each
    token given and to no other; it removes nothing; the keys afterwards are
    the old keys and the tokens; and it never leaves an empty posting set in
    an index that had none. *)
Theorem index_add_page_postings (idx : gmap string (gset nat)) (pid : nat)
    (tokens : list string) (t : string) (d : nat) :
  (d ∈ postings (InvertedIndex.add_page idx pid tokens) t
   ↔ d ∈ postings idx t ∨ (d = pid ∧ t ∈ tokens))
  ∧ (is_Some (InvertedIndex.add_page idx pid tokens !! t)
     ↔ is_Some (idx !! t) ∨ t ∈ tokens)
  ∧ ((∀ k s, idx !! k = Some s → s ≠ ∅) →
     ∀ k s, InvertedIndex.add_page idx pid tokens !! k = Some s → s ≠ ∅).
Proof.
  split; [|split; [apply add_page_is_Some|apply add_page_nonempty]].
  rewrite postings_add_page, elem_of_union.
  case_bool_decide; set_solver.
Qed.

(** X10. After any sequence of ingestions the index is the inversion of the
    tokenizations: page id [d] is in the posting set of token [t] exactly
    when the [d]-th ingested document has [t] among its tokens. *)
Theorem index_inverts_tokenization (docs : list (string * string)) (t : string)
    (d : nat) :
  d ∈ postings (index (engine (foldl ingest new_world docs))) t
  ↔ ∃ doc, docs !! d = Some doc ∧ t ∈ tokenize doc.2.
Proof.
  rewrite postings_ingest_all. simpl. unfold postings at 1.
  rewrite lookup_empty. simpl. split.
  - intros [?%elem_of_empty|(i & doc & Hi & -> & Ht)]; [done|]. eauto.
  - intros (doc & Hd & Ht). right. by exists d, doc.
Qed.



(** X12. Ingestion is append-only, from every state: [ingest] puts the new
    page last, under the id that is the number of pages before, with the
    document's url and content and the frequency table of its tokens; every
    posting and every word of the trie stays; and an index that holds ids of
    pages only still does. So the pages after a sequence of ingestions are
    the documents in order. *)
Theorem ingest_appends (w : World) (doc : string * string)
    (docs : list (string * string)) (t : string) :
  pages (engine (ingest w doc)) = pages (engine w) ++ [page_of doc]
  ∧ postings (index (engine (ingest w doc))) t
    = postings (index (engine w)) t
      ∪ (if bool_decide (t ∈ tokenize doc.2)
         then {[length (pages (engine w))]} else ∅)
  ∧ (Trie.search (trie (ingest w doc)) t = true
     ↔ Trie.search (trie w) t = true ∨ t ∈ tokenize doc.2)
  ∧ (index_bounded (engine w) → index_bounded (engine (ingest w doc)))
  ∧ pages (engine (foldl ingest new_world docs)) = page_of <$> docs.
Proof.
  assert (postings (index (engine (ingest w doc))) t
          = postings (index (engine w)) t
            ∪ (if bool_decide (t ∈ tokenize doc.2)
               then {[length (pages (engine w))]} else ∅)) as Hpost.
  { rewrite ingest_eq. simpl. rewrite postings_add_page, length_app. simpl.
    by replace (length (pages (engine w)) + 1 - 1) with (length (pages (engine w)))
      by lia. }
  split; [by rewrite ingest_eq|]. split; [done|]. split; [|split].
  - rewrite ingest_eq. simpl.
    rewrite search_foldl_insert, orb_true_iff, bool_decide_eq_true. naive_solver.
  - intros Hb token d. rewrite ingest_eq. simpl.
    rewrite postings_add_page, !length_app. simpl.
    intros [Hd|Hd]%elem_of_union.
    + apply Hb in Hd. lia.
    + case_bool_decide; [|by apply elem_of_empty in Hd].
      apply elem_of_singleton in Hd. lia.
  - by rewrite pages_ingest_all.
Qed.

(** ** Searching, again and again *)

Section SearchMore.

Variable o : SetOrder.

Implicit Types (e : SearchEngine) (q : string) (w : World) (st : Scan)
  (hs : list (string * nat)) (ps : list WebPage).

Lemma same_counts_all_refl ps : Forall2 same_counts ps ps.
Proof. apply Forall_Forall2_diag, Forall_forall. intros. apply same_counts_refl. Qed.

Lemma same_counts_all_trans ps1 ps2 ps3 :
  Forall2 same_counts ps1 ps2 → Forall2 same_counts ps2 ps3 →
  Forall2 same_counts ps1 ps3.
Proof.
  intros H12. revert ps3. induction H12 as [|p1 p2 ps1 ps2 Hp _ IH]; intros ps3 H23.
  - by inversion H23.
  - inversion H23 as [|? p3 ? ps3' Hp' H23']; subst. constructor; [|by apply IH].
    by eapply same_counts_trans.
Qed.

(** What the ranking is computed from stays the same while the index does
    and the pages keep their contents and counts. *)
Lemma candidates_same e e' q :
  index e' = index e → Forall2 same_counts (pages e) (pages e') →
  candidates o e' q = candidates o e q.
Proof.
  intros Hidx Hps. unfold candidates. rewrite Hidx.
  apply list_fmap_ext. intros _ d _.
  assert (∀ (f : WebPage → nat),
            (∀ p p', same_counts p p' → f p' = f p) →
            default 0 (f <$> pages e' !! d) = default 0 (f <$> pages e !! d)) as Hnat.
  { intros f Hf. destruct (pages e !! d) as [p|] eqn:Hp.
    - destruct (Forall2_lookup_l _ _ _ _ _ Hps Hp) as (p' & -> & Hsame).
      simpl. by rewrite (Hf p p').
    - destruct (pages e' !! d) as [p'|] eqn:Hp'; [|done].
      destruct (Forall2_lookup_r _ _ _ _ _ Hps Hp') as (p & Hp'' & _). congruence. }
  f_equal.
  - unfold frequency_sum. rewrite Hidx. f_equal.
    apply list_fmap_ext. intros _ token _.
    case_decide; [|done]. apply Hnat. by intros p p' (_ & _ & _ & ->).
  - unfold is_exact. destruct (pages e !! d) as [p|] eqn:Hp.
    + destruct (Forall2_lookup_l _ _ _ _ _ Hps Hp) as (p' & -> & Hsame).
      simpl. destruct Hsame as (_ & -> & _). done.
    + destruct (pages e' !! d) as [p'|] eqn:Hp'; [|done].
      destruct (Forall2_lookup_r _ _ _ _ _ Hps Hp') as (p & Hp'' & _). congruence.
Qed.

Lemma query_spec w q :
  index_bounded (engine w) →
  ∃ w', query o w q = Some w'
        ∧ trie w' = trie w
        ∧ index (engine w') = index (engine w)
        ∧ Forall2 same_counts (pages (engine w)) (pages (engine w'))
        ∧ index_bounded (engine w').
Proof.
  intros Hb. destruct (search_spec o (engine w) q Hb) as (ps' & Hps & Heq).
  unfold query. rewrite Heq. simpl. eexists. split; [done|]. simpl.
  split; [done|]. split; [done|]. split; [done|].
  intros token d Hd. simpl in *. rewrite <- (Forall2_length _ _ _ Hps). by eapply Hb.
Qed.

Lemma queries_spec (qs : list string) : ∀ w,
  index_bounded (engine w) →
  ∃ w', for_each (query o) w qs = Some w'
        ∧ trie w' = trie w
        ∧ index (engine w') = index (engine w)
        ∧ Forall2 same_counts (pages (engine w)) (pages (engine w'))
        ∧ index_bounded (engine w').
Proof.
  induction qs as [|q qs IH]; intros w Hb; simpl.
  - exists w. split; [done|]. split; [done|]. split; [done|].
    split; [apply same_counts_all_refl|done].
  - destruct (query_spec w q Hb) as (w1 & -> & Ht1 & Hi1 & Hp1 & Hb1).
    destruct (IH w1 Hb1) as (w' & -> & Ht & Hi & Hp & Hb').
    exists w'. split; [done|]. split; [congruence|]. split; [congruence|].
    split; [by eapply same_counts_all_trans|done].
Qed.

(** The ids that [search] ranks are those with a match. *)
Lemma search_ranked_ids e q :
  index_bounded e →
  ∃ e' ranked,
    SearchEngine.search o e q = Some (e', ranked)
    ∧ ranked ≡ₚ candidates o e q
    ∧ pageId <$> candidates o e q
      = first_occurrences (hits o (index e) (tokenize q)).*2.
Proof.
  intros Hb. destruct (search_spec o e q Hb) as (ps' & _ & ->).
  eexists _, _. split; [done|]. split; [apply sorted_perm|].
  unfold candidates. rewrite <- list_fmap_compose. apply list_fmap_id.
Qed.

End SearchMore.

(** X13. After any sequence of ingestions, any sequence of searches runs to
    its end: no search raises. The searches leave the trie and the index as
    they were, and every page with its url, its content and every count it
    stored; all they can add to a frequency table are keys with count 0. *)
Theorem queries_never_raise (o : SetOrder) (docs : list (string * string))
    (qs : list string) :
  let w := foldl ingest new_world docs in
  ∃ w', for_each (query o) w qs = Some w'
        ∧ trie w' = trie w
        ∧ index (engine w') = index (engine w)
        ∧ Forall2 same_counts (pages (engine w)) (pages (engine w')).
Proof.
  intros w.
  destruct (queries_spec o qs w (index_bounded_ingest_all docs))
    as (w' & Hrun & Ht & Hi & Hp & _).
  by exists w'.
Qed.

(** X14. What a search returns does not depend on the searches run before
    it: after any ingestions and any earlier searches, a query gets the
    ranked entries it would have got right after the ingestions. *)
Theorem search_unaffected_by_earlier_queries (o : SetOrder)
    (docs : list (string * string)) (qs : list string) (q : string) :
  let w := foldl ingest new_world docs in
  ∃ w' ranked,
    for_each (query o) w qs = Some w'
    ∧ snd <$> SearchEngine.search o (engine w) q = Some ranked
    ∧ snd <$> SearchEngine.search o (engine w') q = Some ranked.
Proof.
  intros w.
  destruct (queries_spec o qs w (index_bounded_ingest_all docs))
    as (w' & Hrun & _ & Hi & Hp & Hb').
  destruct (search_spec o (engine w) q (index_bounded_ingest_all docs))
    as (ps & _ & Heq).
  destruct (search_spec o (engine w') q Hb') as (ps' & _ & Heq').
  exists w', (sorted ranked_key (candidates o (engine w) q)).
  split; [done|]. fold w in Heq. rewrite Heq, Heq'. simpl.
  split; [done|]. by rewrite (candidates_same o (engine w) (engine w')).
Qed.

Section SettledFacts.

Variable o : SetOrder.

Implicit Types (e : SearchEngine) (q t : string) (st : Scan) (d : nat)
  (hs : list (string * nat)) (ps : list WebPage) (p : WebPage).

Lemma visit_inv t st d st' :
  SearchEngine.visit t st d = Some st' →
  ∃ p, scan_pages st !! d = Some p
       ∧ scan_pages st' = <[d := (read_count p t).2]> (scan_pages st).
Proof.
  unfold SearchEngine.visit.
  destruct (scan_pages st !! d) as [p|]; simpl; [|done].
  destruct (read_count p t) as [n p'] eqn:Hread. intros [= <-]. simpl.
  exists p. split; [done|]. by rewrite Hread.
Qed.

Lemma read_count_holds p t : is_Some (wordFrequency (read_count p t).2 !! t).
Proof.
  unfold read_count. destruct (wordFrequency p !! t) as [n|] eqn:Hn; simpl.
  - by rewrite Hn.
  - by rewrite lookup_insert_eq.
Qed.

Lemma read_count_settled p t :
  is_Some (wordFrequency p !! t) → (read_count p t).2 = p.
Proof. unfold read_count. by intros [n ->]. Qed.

(** A visit removes no key of any table. *)
Lemma visit_keeps t st d st' d' t' :
  SearchEngine.visit t st d = Some st' →
  holds_key (scan_pages st) d' t' → holds_key (scan_pages st') d' t'.
Proof.
  intros (p & Hp & ->)%visit_inv (p' & Hp' & Hkey).
  destruct (decide (d = d')) as [<-|Hne].
  - rewrite Hp in Hp'. injection Hp' as <-.
    exists (read_count p t).2. split.
    + apply list_lookup_insert_eq. by eapply lookup_lt_Some.
    + destruct (read_count_spec p t) as [_ (_ & _ & Hsub & _)].
      destruct Hkey as [n Hn]. exists n. by eapply lookup_weaken.
  - exists p'. by rewrite list_lookup_insert_ne.
Qed.

Lemma scan_keeps hs : ∀ st st' d' t',
  for_each (λ st h, SearchEngine.visit h.1 st h.2) st hs = Some st' →
  holds_key (scan_pages st) d' t' → holds_key (scan_pages st') d' t'.
Proof.
  induction hs as [|[t d] hs IH]; intros st st' d' t'; simpl.
  - by intros [= <-].
  - destruct (SearchEngine.visit t st d) as [st1|] eqn:Hvisit; [|done].
    intros Hrest Hkey. eapply IH; [done|]. by eapply visit_keeps.
Qed.

(** After the matching loop every key that it read is in its table. *)
Lemma scan_holds hs : ∀ st st',
  for_each (λ st h, SearchEngine.visit h.1 st h.2) st hs = Some st' →
  ∀ h, h ∈ hs → holds_key (scan_pages st') h.2 h.1.
Proof.
  induction hs as [|[t d] hs IH]; intros st st'; simpl.
  - intros _ h ?%elem_of_nil. done.
  - destruct (SearchEngine.visit t st d) as [st1|] eqn:Hvisit; [|done].
    intros Hrest h [->|Hh]%elem_of_cons; [|by eapply IH].
    eapply scan_keeps; [done|]. simpl.
    apply visit_inv in Hvisit as (p & Hp & ->).
    exists (read_count p t).2. split; [|apply read_count_holds].
    apply list_lookup_insert_eq. by eapply lookup_lt_Some.
Qed.

(** A matching loop that reads only keys that are there writes no page. *)
Lemma scan_settled hs : ∀ st,
  (∀ h, h ∈ hs → holds_key (scan_pages st) h.2 h.1) →
  ∃ st', for_each (λ st h, SearchEngine.visit h.1 st h.2) st hs = Some st'
         ∧ scan_pages st' = scan_pages st.
Proof.
  induction hs as [|[t d] hs IH]; intros st Hkeys; simpl; [by exists st|].
  destruct (Hkeys (t, d)) as (p & Hp & Hkey); [by left|]. simpl in Hp, Hkey.
  unfold SearchEngine.visit at 1. rewrite Hp. simpl.
  pose proof (read_count_settled p t Hkey) as Hsame.
  destruct (read_count p t) as [n p'] eqn:Hread. simpl in Hsame. subst p'.
  rewrite list_insert_id by done.
  destruct (IH (MkScan (scan_pages st) (bump d 1 (pageMatchCount st))
                  (<[d := default 0 (pageFrequencySum st !! d) + n]>
                     (pageFrequencySum st))))
    as (st' & -> & Hpages).
  { intros h Hh. apply Hkeys. by right. }
  by exists st'.
Qed.

End SettledFacts.

(** X15. Asking the same query again changes nothing: on an engine whose
    index holds ids of pages only, the engine that a search leaves is a fixed
    point of that search, which returns the same ranked entries again. *)
Theorem search_twice (o : SetOrder) (e e' : SearchEngine) (q : string)
    (ranked : list Ranked) :
  index_bounded e →
  SearchEngine.search o e q = Some (e', ranked) →
  SearchEngine.search o e' q = Some (e', ranked).
Proof.
  intros Hb Hrun.
  destruct (search_spec o e q Hb) as (ps1 & Hps1 & Heq1).
  rewrite Heq1 in Hrun. injection Hrun as <- <-.
  assert (index_bounded (MkEngine ps1 (index e))) as Hb'.
  { intros token d Hd. simpl in *. rewrite <- (Forall2_length _ _ _ Hps1).
    by eapply Hb. }
  destruct (search_spec o _ q Hb') as (ps2 & _ & Heq2).
  rewrite (candidates_same o e) in Heq2 by done. rewrite Heq2.
  do 3 f_equal.
  (* the second matching loop writes nothing *)
  unfold SearchEngine.search in Heq1, Heq2.
  rewrite scan_as_hits in Heq1, Heq2. simpl in Heq2.
  destruct (for_each _ (MkScan (pages e) [] ∅) _) as [st1|] eqn:Hscan1; [|done].
  simpl in Heq1. injection Heq1 as Hps _.
  destruct (scan_settled (hits o (index e) (tokenize q)) (MkScan ps1 [] ∅))
    as (st2 & Hscan2 & Hpages2).
  { simpl. rewrite <- Hps. by eapply scan_holds. }
  rewrite Hscan2 in Heq2. simpl in Heq2. injection Heq2 as Hps2 _.
  by rewrite <- Hps2, Hpages2.
Qed.

Lemma search_twice_witness :
  ∃ e' ranked,
    SearchEngine.search ascending (engine main_world) "pages" = Some (e', ranked)
    ∧ SearchEngine.search ascending e' "pages" = Some (e', ranked).
Proof.
  destruct (SearchEngine.search ascending (engine main_world) "pages")
    as [[e' ranked]|] eqn:Hrun; [|by vm_compute in Hrun].
  exists e', ranked. split; [done|].
  apply (search_twice ascending (engine main_world) e' "pages" ranked).
  - apply (index_bounded_ingest_all main_pages).
  - exact Hrun.
Defined.

Section FoundFacts.

Variable o : SetOrder.

Implicit Types (e : SearchEngine) (q x : string) (d n : nat) (l : list nat).

Lemma nodup_below_length l n : NoDup l → (∀ d, d ∈ l → d < n) → length l ≤ n.
Proof.
  intros Hnd Hlt. trans (length (seq 0 n)); [|by rewrite length_seq].
  apply submseteq_length, NoDup_submseteq; [done|].
  intros d Hd. apply elem_of_seq. apply Hlt in Hd. lia.
Qed.

Lemma sum_list_elem n l : n ∈ l → n ≤ sum_list l.
Proof.
  induction l as [|m l IH]; [by intros ?%elem_of_nil|].
  intros [->|Hn]%elem_of_cons; simpl; [lia|]. apply IH in Hn. lia.
Qed.

Lemma content_word_facts (c : string) x :
  x ∈ content_words c → normal_token x ∧ in_stopWords x = false.
Proof.
  unfold content_words. rewrite list_elem_of_filter. intros [Hstop Hx].
  split; [|done].
  pose proof (split_go_normal _ "" eq_refl (cleaned_chars c)) as Hwords.
  by apply (proj1 (Forall_forall _ _) Hwords).
Qed.

Lemma candidate_fields e q (r : Ranked) :
  r ∈ candidates o e q →
  pageId r ∈ (hits o (index e) (tokenize q)).*2
  ∧ matchCount r = match_count (index e) (tokenize q) (pageId r)
  ∧ frequencySum r = frequency_sum e (tokenize q) (pageId r).
Proof.
  unfold candidates. intros (d & -> & Hd)%list_elem_of_fmap. simpl.
  rewrite first_occurrences_elem in Hd. split; [done|]. by split.
Qed.

End FoundFacts.

(** X16. After any sequence of ingestions, the ranked entries of a search
    are at most as many as the pages; each carries the id of an ingested
    page, and a match count that is at least 1 and at most the number of
    tokens of the query. *)
Theorem ranked_entries_bounded (o : SetOrder) (docs : list (string * string))
    (q : string) :
  let e := engine (foldl ingest new_world docs) in
  ∃ e' ranked,
    SearchEngine.search o e q = Some (e', ranked)
    ∧ length ranked ≤ length docs
    ∧ Forall (λ r, pageId r < length docs
                   ∧ 1 ≤ matchCount r ≤ length (tokenize q)) ranked.
Proof.
  intros e.
  pose proof (index_bounded_ingest_all docs) as Hb. fold e in Hb.
  assert (length (pages e) = length docs) as Hlen.
  { unfold e. by rewrite pages_ingest_all, length_app, length_fmap. }
  destruct (search_ranked_ids o e q Hb) as (e' & ranked & Hrun & Hperm & Hids).
  exists e', ranked. split; [done|]. split.
  - rewrite Hperm, <- (length_fmap pageId), Hids, <- Hlen.
    apply nodup_below_length; [apply first_occurrences_nodup|].
    intros d Hd. rewrite first_occurrences_elem in Hd.
    apply list_elem_of_fmap in Hd as (h & -> & Hh). by eapply hits_bounded.
  - rewrite Hperm. apply Forall_forall. intros r Hr.
    destruct (candidate_fields o e q r Hr) as (Hid & -> & _).
    split; [|split].
    + rewrite <- Hlen. apply list_elem_of_fmap in Hid as (h & -> & Hh).
      by eapply hits_bounded.
    + by apply hits_elem in Hid.
    + unfold match_count. apply length_filter.
Qed.

(** X17. A page is found by every word of its own content: after any
    sequence of ingestions, searching for a word that [tokenize] keeps of the
    [i]-th document ranks page [i], with a match and with a frequency sum of
    at least the number of times the word is a token of the document. *)
Theorem ingested_word_is_found (o : SetOrder) (docs : list (string * string)) (i : nat)
    (doc : string * string) (x : string) :
  docs !! i = Some doc →
  x ∈ content_words doc.2 →
  ∃ e' ranked r,
    SearchEngine.search o (engine (foldl ingest new_world docs)) x = Some (e', ranked)
    ∧ r ∈ ranked
    ∧ pageId r = i
    ∧ 1 ≤ matchCount r
    ∧ 1 ≤ occurrences x (tokenize doc.2) ≤ frequencySum r.
Proof.
  intros Hdoc Hx. set (e := engine (foldl ingest new_world docs)).
  pose proof (index_bounded_ingest_all docs) as Hb. fold e in Hb.
  destruct (content_word_facts _ _ Hx) as [Hnormal Hstop].
  destruct (content_word_tokens _ _ Hx) as [Htok _].
  assert (x ∈ tokenize x) as Hxx.
  { rewrite tokenize_normal_token by done. unfold token_forms. rewrite Hstop.
    simpl. destruct (String.eqb (to_singular x) x); by left. }
  assert (i ∈ InvertedIndex.search (index e) x) as Hfound.
  { rewrite search_postings, normal_to_lower by apply Hnormal.
    apply elem_of_union. left. apply postings_ingest_all. right. by exists i, doc. }
  assert (0 < match_count (index e) (tokenize x) i) as Hcount.
  { unfold match_count.
    assert (x ∈ filter (λ token, i ∈ InvertedIndex.search (index e) token)
                       (tokenize x)) as Hin by by apply list_elem_of_filter.
    destruct (filter _ _); [by apply elem_of_nil in Hin|simpl; lia]. }
  destruct (search_ranked_ids o e x Hb) as (e' & ranked & Hrun & Hperm & Hids).
  assert (i ∈ pageId <$> ranked) as (r & Hi & Hr)%list_elem_of_fmap.
  { rewrite Hperm, Hids. by apply first_occurrences_elem, hits_elem. }
  exists e', ranked, r. split; [done|]. split; [done|]. split; [done|].
  rewrite Hperm in Hr. destruct (candidate_fields o e x r Hr) as (_ & -> & ->).
  rewrite <- Hi. split; [lia|]. split; [by apply occurrences_pos|].
  unfold frequency_sum. apply sum_list_elem, list_elem_of_fmap.
  exists x. split; [|done]. rewrite decide_True by done.
  unfold e. rewrite pages_ingest_all. simpl.
  rewrite list_lookup_fmap, Hdoc. simpl. unfold stored_count.
  by rewrite page_of_lookup, decide_True.
Qed.

Lemma ingested_word_is_found_witness :
  ∃ e' ranked r,
    SearchEngine.search ascending (engine (foldl ingest new_world main_pages))
      "engines"
    = Some (e', ranked)
    ∧ r ∈ ranked
    ∧ pageId r = 2
    ∧ 1 ≤ matchCount r
    ∧ 1 ≤ occurrences "engines"
            (tokenize "The news are spreading quickly. Search engines use algorithms.")
        ≤ frequencySum r.
Proof.
  apply (ingested_word_is_found ascending main_pages 2
           ("https://example3.com",
            "The news are spreading quickly. Search engines use algorithms.")
           "engines").
  - reflexivity.
  - vm_compute. by apply (list_elem_of_lookup_2 _ 5).
Defined.

(** ** Word break and the trie's words *)

Section WordBreakMore.

Implicit Types (s w out : string) (ws : list string) (trie : Trie).

Lemma segmentation_insert trie w s ws :
  segmentation trie s ws → segmentation (Trie.insert trie w) s ws.
Proof.
  intros [Hws Hs]. split; [|done].
  eapply Forall_impl; [done|]. intros x [Hx Hknown]. split; [done|].
  by rewrite search_insert, Hknown, orb_true_r.
Qed.

Lemma remove_spaces_app s1 s2 :
  remove_spaces (s1 +:+ s2) = remove_spaces s1 +:+ remove_spaces s2.
Proof.
  induction s1 as [|c s1 IH]; rewrite ?string_app_cons, ?string_app_nil_l; simpl;
    [done|].
  destruct (Ascii.eqb c " "); [done|]. by rewrite string_app_cons, IH.
Qed.

Lemma remove_spaces_idem s : remove_spaces (remove_spaces s) = remove_spaces s.
Proof.
  induction s as [|c s IH]; simpl; [done|].
  destruct (Ascii.eqb c " ") eqn:Hc; simpl; [done|]. by rewrite Hc, IH.
Qed.

Lemma render_cons w ws :
  render (w :: ws) = match ws with [] => w | _ :: _ => w +:+ " " +:+ render ws end.
Proof. by destruct ws. Qed.

Lemma remove_spaces_render ws :
  remove_spaces (render ws) = remove_spaces (flatten ws).
Proof.
  induction ws as [|w ws IH]; [done|].
  rewrite render_cons. simpl. rewrite remove_spaces_app, <- IH.
  destruct ws as [|w' ws]; [by rewrite string_app_nil_r|].
  by rewrite !remove_spaces_app.
Qed.

End WordBreakMore.

(** X18. A larger vocabulary loses no segmentation: when [word_break]
    returns over a trie and returns again after a word is inserted into the
    trie, every output of the first run is an output of the second; and a
    non-empty string that the trie knows as a word is itself one of its
    outputs. Both runs return when at least two frames more are left than
    the string has characters. With fewer, the insertion can turn a result
    into a [RecursionError]: the new word makes the recursion deeper. *)
Theorem word_break_grows_with_trie (depth : nat) (s w : string) (trie : Trie) :
  (∀ outs outs',
     word_break depth s trie = Some outs →
     word_break depth s (Trie.insert trie w) = Some outs' →
     (∀ out, out ∈ outs → out ∈ outs')
     ∧ (s ≠ "" → Trie.search trie s = true → s ∈ outs))
  ∧ (String.length s + 2 ≤ depth →
     is_Some (word_break depth s trie)
     ∧ is_Some (word_break depth s (Trie.insert trie w)))
  ∧ word_break 3 "aa" (Trie.insert new_trie "aa") = Some ["aa"]
  ∧ word_break 3 "aa" (Trie.insert (Trie.insert new_trie "aa") "a") = None.
Proof.
  split; [|split; [|by vm_compute]].
  - intros outs outs' (segs & -> & _ & Hin)%word_break_sound
      (segs' & -> & _ & Hin')%word_break_sound.
    split.
    + intros out (ws & -> & Hws)%list_elem_of_fmap.
      apply list_elem_of_fmap. exists ws. split; [done|].
      by apply Hin', segmentation_insert, Hin.
    + intros Hs Hknown. apply list_elem_of_fmap. exists [s]. split; [done|].
      apply Hin. split; [by repeat constructor|]. simpl. apply string_app_nil_r.
  - intros Hdepth.
    destruct (word_break_spec trie depth s Hdepth) as (segs & -> & _).
    destruct (word_break_spec (Trie.insert trie w) depth s Hdepth)
      as (segs' & -> & _).
    by split.
Qed.

(** X19. The outputs of [word_break] are the input with spaces put in:
    with the spaces taken out again, as the main loop takes them out of the
    query, every output is the string that was segmented; and there are
    outputs to speak of, a list and no [RecursionError], when at least two
    frames more are left than that string has characters. *)
Theorem word_break_outputs_spell_input (depth : nat) (q : string) (trie : Trie) :
  (∀ outs out,
     word_break depth (remove_spaces q) trie = Some outs →
     out ∈ outs → remove_spaces out = remove_spaces q)
  ∧ (String.length (remove_spaces q) + 2 ≤ depth →
     ∃ outs, word_break depth (remove_spaces q) trie = Some outs).
Proof.
  split.
  - intros outs out (segs & -> & _ & Hin)%word_break_sound
      (ws & -> & [_ Hflat]%Hin)%list_elem_of_fmap.
    by rewrite remove_spaces_render, Hflat, remove_spaces_idem.
  - intros Hdepth.
    destruct (word_break_spec trie depth (remove_spaces q) Hdepth) as (segs & -> & _).
    by eexists.
Qed.

(** ** What the program prints *)

Example search_output_main :
  (r ← SearchEngine.search ascending (engine main_world) "example search";
   search_output r.1 "example search" r.2)
  = Some ["Found: https://example4.com (Matches: 2, Frequency Sum: 2, Exact Match)";
          "Found: https://example.com (Matches: 2, Frequency Sum: 2)";
          "Found: https://example2.com (Matches: 1, Frequency Sum: 1)";
          "Found: https://example3.com (Matches: 1, Frequency Sum: 1)"]
  ∧ (r ← SearchEngine.search ascending (engine main_world) "the a in";
     search_output r.1 "the a in" r.2)
    = Some ["No results found for: the a in"].
Proof. by vm_compute. Qed.

Section OutputFacts.

Variable o : SetOrder.

Implicit Types (e : SearchEngine) (q line : string) (w : World) (r : Ranked)
  (ps : list WebPage).

Lemma found_line_is_Some ps r : pageId r < length ps → is_Some (found_line ps r).
Proof.
  intros Hlt. unfold found_line.
  destruct (lookup_lt_is_Some_2 ps _ Hlt) as [page ->]. by eexists.
Qed.

Lemma found_line_not_no_results ps r line q :
  found_line ps r = Some line → line ≠ "No results found for: " +:+ q.
Proof.
  unfold found_line. destruct (ps !! pageId r) as [page|]; simpl; [|done].
  intros [= <-]. rewrite !string_app_cons. discriminate.
Qed.

(** What a search and its output loop do together on an engine whose index
    holds ids of pages only. *)
Lemma search_output_spec e q :
  index_bounded e →
  ∃ e' ranked lines,
    SearchEngine.search o e q = Some (e', ranked)
    ∧ search_output e' q ranked = Some lines
    ∧ length lines = max 1 (length ranked)
    ∧ (lines = ["No results found for: " +:+ q]
       ↔ ∀ d, match_count (index e) (tokenize q) d = 0)
    ∧ index e' = index e
    ∧ length (pages e') = length (pages e).
Proof.
  intros Hb.
  destruct (search_ranked_ids o e q Hb) as (e' & ranked & Hrun & Hperm & Hids).
  destruct (search_frame o e q e' ranked Hb Hrun) as [Hidx Hps].
  apply Forall2_length in Hps.
  assert (∀ d, d ∈ pageId <$> ranked ↔ 0 < match_count (index e) (tokenize q) d)
    as Hin.
  { intros d. by rewrite Hperm, Hids, first_occurrences_elem, hits_elem. }
  assert (is_Some (mapM (found_line (pages e')) ranked)) as [lines Hlines].
  { apply mapM_is_Some, Forall_forall. intros r Hr. apply found_line_is_Some.
    rewrite <- Hps. rewrite Hperm in Hr.
    destruct (candidate_fields o e q r Hr) as (Hid & _).
    apply list_elem_of_fmap in Hid as (h & -> & Hh). by eapply hits_bounded. }
  pose proof Hlines as Hall. apply mapM_Some in Hall.
  destruct ranked as [|r ranked].
  - exists e', [], ["No results found for: " +:+ q].
    split; [done|]. split; [done|]. split; [done|]. split; [|done].
    split; [|done]. intros _ d.
    destruct (match_count (index e) (tokenize q) d) eqn:Hd; [done|].
    assert (d ∈ pageId <$> []) as ?%elem_of_nil by (apply Hin; lia). done.
  - exists e', (r :: ranked), lines.
    split; [done|]. split; [done|]. split.
    { rewrite <- (Forall2_length _ _ _ Hall). simpl. lia. }
    split; [|done]. split.
    + intros ->. inversion Hall as [|? line ? ? Hline _]; subst.
      by destruct (found_line_not_no_results _ _ _ q Hline).
    + intros Hnone.
      assert (0 < match_count (index e) (tokenize q) (pageId r)) as Hpos
        by (apply Hin; left). rewrite Hnone in Hpos. lia.
Qed.

End OutputFacts.

(** X20. After any sequence of ingestions a search prints without fault,
    and never nothing: one line for every ranked entry, or the single line
    No results found for: followed by the query, which it prints exactly
    when no token of the query matches any page. *)
Theorem search_prints (o : SetOrder) (docs : list (string * string)) (q : string) :
  let e := engine (foldl ingest new_world docs) in
  ∃ e' ranked lines,
    SearchEngine.search o e q = Some (e', ranked)
    ∧ search_output e' q ranked = Some lines
    ∧ length lines = max 1 (length ranked)
    ∧ (lines = ["No results found for: " +:+ q]
       ↔ ∀ d, match_count (index e) (tokenize q) d = 0).
Proof.
  intros e.
  destruct (search_output_spec o e q (index_bounded_ingest_all docs))
    as (e' & ranked & lines & H1 & H2 & H3 & H4 & _).
  by exists e', ranked, lines.
Qed.

Section MainLoopFacts.

Variable o : SetOrder.
Variable depth : nat.

Implicit Types (w : World) (line stop : string) (before after : list string).




End MainLoopFacts.




(** ** Composition with further text and further pages *)

Section ComposeFacts.

Variable o : SetOrder.

Implicit Types (a b cur : string) (c : ascii) (w : World) (d : nat)
  (doc : string * string) (q t : string).

Lemma to_lower_app a b : to_lower (a +:+ b) = to_lower a +:+ to_lower b.
Proof.
  induction a as [|c a IH]; rewrite ?string_app_cons, ?string_app_nil_l; simpl;
    [done|]. by rewrite IH, string_app_cons.
Qed.

Lemma remove_punctuation_app a b :
  remove_punctuation (a +:+ b) = remove_punctuation a +:+ remove_punctuation b.
Proof.
  induction a as [|c a IH]; rewrite ?string_app_cons, ?string_app_nil_l; simpl;
    [done|]. destruct (kept_char c); [|done]. by rewrite IH, string_app_cons.
Qed.

Lemma split_go_space a : ∀ cur c b,
  is_space c = true →
  split_go cur (a +:+ String c b) = split_go cur a ++ split_go "" b.
Proof.
  induction a as [|c' a IH]; intros cur c b Hc;
    rewrite ?string_app_cons, ?string_app_nil_l; simpl.
  - rewrite Hc. by destruct (String.eqb cur "").
  - destruct (is_space c'); [|by apply IH].
    destruct (String.eqb cur ""); [by apply IH|]. simpl. f_equal. by apply IH.
Qed.

Lemma tokenize_space a b : tokenize (a +:+ " " +:+ b) = tokenize a ++ tokenize b.
Proof.
  unfold tokenize, split.
  rewrite !remove_punctuation_app, !to_lower_app.
  change (to_lower (remove_punctuation " ")) with (String " " "").
  rewrite string_app_cons, string_app_nil_l.
  rewrite split_go_space by done. apply flat_map_app.
Qed.

Lemma match_count_app (idx : gmap string (gset nat)) (l1 l2 : list string) d :
  match_count idx (l1 ++ l2) d = match_count idx l1 d + match_count idx l2 d.
Proof. unfold match_count. by rewrite filter_app, length_app. Qed.

Lemma frequency_sum_app (e : SearchEngine) (l1 l2 : list string) d :
  frequency_sum e (l1 ++ l2) d = frequency_sum e l1 d + frequency_sum e l2 d.
Proof. unfold frequency_sum. by rewrite fmap_app, sum_list_append. Qed.

(** What [ingest] leaves of the earlier pages' entries. *)
Lemma search_old_page w doc t d :
  d < length (pages (engine w)) →
  d ∈ InvertedIndex.search (index (engine (ingest w doc))) t
  ↔ d ∈ InvertedIndex.search (index (engine w)) t.
Proof.
  intros Hd. rewrite !search_postings, ingest_eq. simpl.
  rewrite !postings_add_page, length_app. simpl.
  rewrite !elem_of_union.
  assert (∀ b : bool,
            d ∈ (if b then ({[length (pages (engine w)) + 1 - 1]} : gset nat) else ∅)
            ↔ False) as Hnew.
  { intros [|]; [rewrite elem_of_singleton; lia|by rewrite elem_of_empty]. }
  rewrite !Hnew. tauto.
Qed.

Lemma candidate_old_page w doc q d :
  d < length (pages (engine w)) →
  match_count (index (engine (ingest w doc))) (tokenize q) d
  = match_count (index (engine w)) (tokenize q) d
  ∧ frequency_sum (engine (ingest w doc)) (tokenize q) d
    = frequency_sum (engine w) (tokenize q) d
  ∧ is_exact (engine (ingest w doc)) q d = is_exact (engine w) q d.
Proof.
  intros Hd.
  assert (pages (engine (ingest w doc)) !! d = pages (engine w) !! d) as Hpage.
  { rewrite ingest_eq. simpl. by apply lookup_app_l. }
  split; [|split].
  - unfold match_count. f_equal. apply list_filter_iff. intros t.
    by apply search_old_page.
  - unfold frequency_sum. f_equal. apply list_fmap_ext. intros _ t _.
    rewrite Hpage.
    destruct (decide (d ∈ InvertedIndex.search (index (engine w)) t)) as [Hin|Hin].
    + rewrite decide_True; [done|]. by apply search_old_page.
    + rewrite decide_False; [done|]. by rewrite search_old_page.
  - unfold is_exact. by rewrite Hpage.
Qed.

Lemma ranked_iff_candidate (e : SearchEngine) q (r : Ranked) :
  r ∈ candidates o e q
  ↔ 0 < match_count (index e) (tokenize q) (pageId r)
    ∧ r = MkRanked (pageId r) (match_count (index e) (tokenize q) (pageId r))
                   (frequency_sum e (tokenize q) (pageId r))
                   (is_exact e q (pageId r)).
Proof.
  unfold candidates. rewrite list_elem_of_fmap. split.
  - intros (d & -> & Hd). rewrite first_occurrences_elem, hits_elem in Hd. by simpl.
  - intros [Hpos Hr]. exists (pageId r). split; [done|].
    by rewrite first_occurrences_elem, hits_elem.
Qed.

Lemma frequency_sum_zero (e : SearchEngine) (tokens : list string) d :
  match_count (index e) tokens d = 0 → frequency_sum e tokens d = 0.
Proof.
  unfold match_count, frequency_sum.
  induction tokens as [|t tokens IH]; [done|]. rewrite filter_cons. csimpl.
  destruct (decide (d ∈ InvertedIndex.search (index e) t)); [done|].
  intros Hzero. by rewrite IH.
Qed.

(** What the output of a search shows of a page: its match count and its
    frequency sum for the query, which are 0 for a page that is not listed. *)
Lemma shown_spec (e e' : SearchEngine) q (ranked : list Ranked) d :
  index_bounded e →
  SearchEngine.search o e q = Some (e', ranked) →
  shown_matches ranked d = match_count (index e) (tokenize q) d
  ∧ shown_sum ranked d = frequency_sum e (tokenize q) d.
Proof.
  intros Hb Hrun.
  destruct (search_ranked_ids o e q Hb) as (e0 & ranked0 & Hrun0 & Hperm & _).
  rewrite Hrun in Hrun0. injection Hrun0 as <- <-.
  assert (∀ r, r ∈ filter (λ r, pageId r = d) ranked ↔
               0 < match_count (index e) (tokenize q) d
               ∧ r = MkRanked d (match_count (index e) (tokenize q) d)
                              (frequency_sum e (tokenize q) d) (is_exact e q d))
    as Hin.
  { intros r. rewrite list_elem_of_filter, Hperm, ranked_iff_candidate.
    split; [by intros [<- [? ?]]|]. by intros [? ->]. }
  unfold shown_matches, shown_sum, entry_of.
  destruct (filter (λ r, pageId r = d) ranked) as [|r rs].
  - destruct (match_count (index e) (tokenize q) d) as [|n] eqn:Hmc.
    + by rewrite frequency_sum_zero.
    + assert (MkRanked d (S n) (frequency_sum e (tokenize q) d) (is_exact e q d)
              ∈ @nil Ranked) as ?%elem_of_nil; [|done].
      apply Hin. split; [lia|done].
  - destruct (proj1 (Hin r)) as [_ ->]; [by left|]. done.
Qed.

End ComposeFacts.

(** X22. White space between two texts keeps their tokens apart: the tokens
    of two texts joined by a space are the tokens of the first followed by
    those of the second. So, after any ingestions, what [search] shows of a
    page for a query made of two parts is the sum of what it shows for the
    parts: the match count of the page is the sum of its two match counts,
    and its frequency sum the sum of its two frequency sums, a page that a
    search does not list counting 0. *)
Theorem tokenize_joined (o : SetOrder) (docs : list (string * string))
    (a b : string) (d : nat) :
  let e := engine (foldl ingest new_world docs) in
  tokenize (a +:+ " " +:+ b) = tokenize a ++ tokenize b
  ∧ ∃ ea ra eb rb eab rab,
      SearchEngine.search o e a = Some (ea, ra)
      ∧ SearchEngine.search o e b = Some (eb, rb)
      ∧ SearchEngine.search o e (a +:+ " " +:+ b) = Some (eab, rab)
      ∧ shown_matches rab d = shown_matches ra d + shown_matches rb d
      ∧ shown_sum rab d = shown_sum ra d + shown_sum rb d.
Proof.
  intros e. split; [apply tokenize_space|].
  pose proof (index_bounded_ingest_all docs) as Hb. fold e in Hb.
  destruct (search_spec o e a Hb) as (psa & _ & Ha).
  destruct (search_spec o e b Hb) as (psb & _ & Hb').
  destruct (search_spec o e (a +:+ " " +:+ b) Hb) as (psab & _ & Hab).
  eexists _, _, _, _, _, _. split; [done|]. split; [done|]. split; [done|].
  destruct (shown_spec o e _ a _ d Hb Ha) as [-> ->].
  destruct (shown_spec o e _ b _ d Hb Hb') as [-> ->].
  destruct (shown_spec o e _ (a +:+ " " +:+ b) _ d Hb Hab) as [-> ->].
  rewrite tokenize_space. split; [apply match_count_app|apply frequency_sum_app].
Qed.

(** X23. Adding a page changes no earlier page's entry: after any
    ingestions, a search run before and after one more document is ingested
    ranks the same earlier pages, each with the same match count, frequency
    sum and exact-match flag. *)
Theorem ingest_keeps_earlier_entries (o : SetOrder) (docs : list (string * string))
    (doc : string * string) (q : string) :
  let w := foldl ingest new_world docs in
  ∃ e1 ranked1 e2 ranked2,
    SearchEngine.search o (engine w) q = Some (e1, ranked1)
    ∧ SearchEngine.search o (engine (ingest w doc)) q = Some (e2, ranked2)
    ∧ ∀ r, pageId r < length docs → r ∈ ranked2 ↔ r ∈ ranked1.
Proof.
  intros w.
  pose proof (index_bounded_ingest_all docs) as Hb. fold w in Hb.
  pose proof (index_bounded_ingest_all (docs ++ [doc])) as Hb'.
  rewrite foldl_app in Hb'. simpl in Hb'. fold w in Hb'.
  assert (length (pages (engine w)) = length docs) as Hlen.
  { unfold w. by rewrite pages_ingest_all, length_app, length_fmap. }
  destruct (search_ranked_ids o (engine w) q Hb)
    as (e1 & ranked1 & Hrun1 & Hperm1 & _).
  destruct (search_ranked_ids o _ q Hb') as (e2 & ranked2 & Hrun2 & Hperm2 & _).
  exists e1, ranked1, e2, ranked2. split; [done|]. split; [done|].
  intros r Hr. rewrite <- Hlen in Hr.
  rewrite Hperm1, Hperm2, !ranked_iff_candidate.
  destruct (candidate_old_page w doc q (pageId r) Hr) as (-> & -> & ->). done.
Qed.
